(* ===== verification/_CoqProject ===== *)
-Q . S2P
Prelude.v
Float64.v
Config.v
Canvas.v
Render.v
Reel.v
Convergence.v
System.v
Refinement.v
