(* ===== verification/Prelude.v ===== *)
(** * A verification library for the roulette reel of [src/index.js]

    ** The program

    [src/index.js] is a browser script that draws a horizontal strip of
    images (a "reel") on a canvas and, on a click, spins it: the strip
    accelerates for a random time, decelerates geometrically, and is then
    pulled back until one image sits exactly under the centre line; that
    image is the winner, highlighted and logged.  The script keeps its whole
    state in six top-level [let] variables ([speed], [state], [startIndex],
    [startTime], [accelerationDuration], [offset]) and consists of
    - [draw]: paints the visible slots and the centre divider on the shared
      2D context;
    - [update]: one animation frame: a phase transition on elapsed time, the
      wrap-around of [offset], a call of [draw], the motion of the phase,
      and either a new [requestAnimationFrame(update)] or the settle (the
      highlight rectangle and the winner on the console);
    - the click listener registered by [init]: re-arms a spin when the reel
      rests ([speed === 0 && offset === 0]);
    - [random]: the integer drawn for the acceleration duration.
    Image fetching and decoding ([loadImage], the loop of [init]) and the
    DOM wiring are browser plumbing.

    ** The library, file by file (the order of [_CoqProject])

    - [Prelude] (this file): JavaScript numbers as exact rationals [Q] with
      the operations the script uses ([+ - * /], [%] on numbers,
      [Math.floor], [Math.abs], [Math.max], [Math.sign], the comparisons), in
      a scope [js_scope] of their own, with their [Proper] instances for
      rewriting under [Qeq]; reflection lemmas turning the boolean
      comparisons into propositions; the tactics [js_norm], [js_case],
      [close_num]; the hint databases [js] and [js_eqs]; generic lemmas on
      floors, powers (Bernoulli's inequality) and first failures of a test.
    - [Float64]: binary64 rounding to nearest, ties to even, on rationals
      ([round64]), with its monotonicity and its exactness on the integers
      below [2^53]; the operations [f64_add], [f64_sub], [f64_mul].
    - [Config]: the constants of lines 4-18, the [STATE] enumeration, the
      six globals as the record [Globals] with their initial values
      (lines 28-33), and [random] (line 39) in binary64.
    - [Canvas]: the part of the canvas 2D context the script calls (fill and
      stroke styles, [fillRect], [drawImage], the current path with
      [moveTo], [lineTo], [closePath], [stroke]) as a state-and-exception
      monad over a context record; [drawImage] of [undefined] throws a
      [TypeError] as the browser does.
    - [Render]: [draw] (lines 41-65), written in the canvas monad line by
      line, and the settle highlight (lines 111-112).
    - [Reel]: [update] (lines 67-118) as the composition of its parts, each
      a definition of its own: [accelerationCheck] (71-73), [wrapOffset]
      (75-78), [centerIndex] (82-83), [motion] (85-104) with [returnStep]
      (95-103) and the continuation test (106); the transition [tick] of the
      globals alone; the invariant [reel_ok] of the reel between frames.
    - [Convergence]: [run], the frames of a spin at the times of a function
      [now : nat -> Q]; the end of each phase by induction on a measure; the
      bound of a whole spin.
    - [System]: the whole page as a state machine: the world (globals,
      canvas, the number of pending animation frames, the console), the
      click listener (134-145) and the frame event as an inductive step
      relation, reachability from the state [init] (120-148) leaves, the
      invariants proved by rule induction; [play], the browser's frame loop.
    - [Refinement]: the reel machine the specification describes
      (section 4.1, module [Spec]: phases with [Idle], the wrap-around
      bookkeeping, the rule of each phase, the trigger), executable and
      parametrised by its configuration; the view of the globals as a reel
      of the machine; [tick] and the click listener proved to implement it.

    ** What is proved (claims C1.. of the manifest)

    - the invariant of every reachable page (speed and offset non-negative,
      [startIndex] in range, the phase/speed relation, exactly one pending
      frame while the reel moves), by induction on the step relation, and
      the phase order of a frame;
    - the winner: at a settle the centre slot is 1, the winner is
      [(1 + startIndex) mod images.length], in range of [imageUrls]; with a
      single image it is 0;
    - termination: from a click every spin, whatever [Math.random()] gives,
      settles or reaches the livelock within an explicit number of frames;
    - the livelock: a reel in RETURN with [offset] exactly [IMAGE_WIDTH] is
      a fixpoint of [update] that never settles and that no event leaves;
    - conservation of distance across the wrap-around when a frame moves
      less than one image width, and its failure beyond;
    - refinement: a frame is a tick of the specification's machine up to
      the order in which line 85 integrates the speed; a click is its
      trigger;
    - [draw] on every input: what it paints, that two calls paint
      different commands (the path is never reset), and what the frame that
      settles paints;
    - [random(500, 1500)] in binary64: its values lie in [[500, 1501]], and
      1501 is returned for [Math.random() = 1 - 2^-53], so that such a
      click is not the specification's trigger.

    ** Bounds and fuel

    No definition needs fuel: [update] is one frame, and the spin is a
    sequence of frames ([run], [play]) indexed by a number of frames.  The
    termination theorems give that number.  A spin that accelerates at
    speed [s] and whose [K]-th frame is past its acceleration time ends
    within [spin_bound s K = (K + 1) + (ceil(1900 (s + K)) + 1) + 642]
    frames: acceleration lasts at most [K + 1] frames and raises the speed
    by at most [K]; deceleration multiplies it by [0.95 = 19/20] and stops
    below [0.01], so [m] frames suffice once [s + K <= 0.01 (20/19)^m], which
    Bernoulli's inequality [(1 + 1/19)^m >= 1 + m/19] gives for
    [m = ceil(1900 (s + K))]; the return phase, entered less than [0.1]
    past one width, moves at least [0.1] per frame toward its slot over at
    most [64] pixels, hence [642] frames.  From a click, the [K]-th frame
    must come more than 1501 ms after it, the longest duration [random]
    draws.

    ** Numbers

    JavaScript numbers are IEEE doubles.  [random] is computed in binary64
    ([Float64]), because the duration it draws depends on the rounding.
    Everywhere else the model computes the same expressions on exact
    rationals ([Q]), each result kept in lowest terms
    with [Qred] (the value is unchanged, the representation stays small
    enough for [vm_compute] over whole spins).  The decimal constants
    [0.95] and [0.1] are thus the exact decimals, not their double
    approximations; apart from [random], properties that hinge on rounding
    are outside the model.
    Integral quantities (indices, [IMAGE_COUNT], [OFFSET], the result of
    [Math.floor]) are [Z].  Time ([performance.now()]) and [Math.random()]
    are inputs of the events that read them.

    ** Not modelled

    Fetching and decoding images (an external collaborator: the model takes
    the list of decoded images as given), the DOM ([querySelector],
    [addEventListener], [preventDefault]), and the pixels a canvas call
    produces (the model records the calls).  The grouping calls of the
    console are recorded, not their formatting.  [NaN] is not a value of
    the model: with no image, [startIndex] would become [NaN] at line 76,
    where [Z.rem] keeps an integer; the script always loads its five images
    before the first frame. *)

From Stdlib Require Export QArith Qround Qabs ZArith Lia Lqa String List Bool.
Export ListNotations.

Open Scope Q_scope.

(** ** JavaScript numbers *)

(** Arithmetic as a JavaScript engine evaluates it on finite numbers, on
    exact rationals; every result in lowest terms. *)
Definition js_add (a b : Q) : Q := Qred (a + b).
Definition js_sub (a b : Q) : Q := Qred (a - b).
Definition js_mul (a b : Q) : Q := Qred (a * b).
Definition js_div (a b : Q) : Q := Qred (a / b).

(** The comparisons, as the booleans the script branches on. *)
Definition js_lt (a b : Q) : bool := negb (Qle_bool b a).
Definition js_le (a b : Q) : bool := Qle_bool a b.
Definition js_eq (a b : Q) : bool := Qeq_bool a b.

(** [Math.floor] of a finite number is an integer. *)
Definition Math_floor (q : Q) : Z := Qfloor q.

Definition Math_abs (q : Q) : Q := Qabs q.

Definition Math_max (a b : Q) : Q := if Qle_bool a b then b else a.

Definition Math_sign (q : Q) : Q :=
  match Qcompare q 0 with
  | Lt => -1
  | Eq => 0
  | Gt => 1
  end.

(** The integer part toward zero, which the remainder operator uses. *)
Definition Qtrunc (q : Q) : Z := if Qle_bool 0 q then Qfloor q else Qceiling q.

(** [a % b] on numbers: the remainder of the truncated division, with the
    sign of [a]. Only ever applied with [b = IMAGE_WIDTH]. *)
Definition js_fmod (a b : Q) : Q := Qred (a - b * inject_Z (Qtrunc (a / b))).

Declare Scope js_scope.
Delimit Scope js_scope with js.

(** The operands of a JavaScript operation are JavaScript expressions:
    nested operators keep their JavaScript meaning. *)
Arguments js_add (a b)%_js_scope.
Arguments js_sub (a b)%_js_scope.
Arguments js_mul (a b)%_js_scope.
Arguments js_div (a b)%_js_scope.
Arguments js_lt (a b)%_js_scope.
Arguments js_le (a b)%_js_scope.
Arguments js_eq (a b)%_js_scope.
Arguments js_fmod (a b)%_js_scope.
Arguments Math_floor q%_js_scope.
Arguments Math_abs q%_js_scope.
Arguments Math_max (a b)%_js_scope.
Arguments Math_sign q%_js_scope.

Notation "a + b" := (js_add a b) : js_scope.
Notation "a - b" := (js_sub a b) : js_scope.
Notation "a * b" := (js_mul a b) : js_scope.
Notation "a / b" := (js_div a b) : js_scope.
Notation "a < b" := (js_lt a b) : js_scope.
Notation "a > b" := (js_lt b a) : js_scope.
Notation "a <= b" := (js_le a b) : js_scope.
Notation "a === b" := (js_eq a b) (at level 70, no associativity) : js_scope.
Notation "a !== b" := (negb (js_eq a b)) (at level 70, no associativity) : js_scope.


(** ** Arithmetic equations: each operation computes the rational it names *)

Lemma js_add_eq a b : js_add a b == a + b.
Proof. apply Qred_correct. Qed.
Lemma js_sub_eq a b : js_sub a b == a - b.
Proof. apply Qred_correct. Qed.
Lemma js_mul_eq a b : js_mul a b == a * b.
Proof. apply Qred_correct. Qed.
Lemma js_div_eq a b : js_div a b == a / b.
Proof. apply Qred_correct. Qed.

Create HintDb js.
Create Rewrite HintDb js_eqs.
#[export] Hint Rewrite js_add_eq js_sub_eq js_mul_eq js_div_eq : js_eqs.

(** [js_norm] replaces every JavaScript operation of the goal (or of [H])
    by the rational operation it computes, up to [==]. *)
Ltac js_norm :=
  repeat first [ rewrite js_add_eq | rewrite js_sub_eq
               | rewrite js_mul_eq | rewrite js_div_eq ].
Ltac js_norm_in H :=
  repeat first [ rewrite js_add_eq in H | rewrite js_sub_eq in H
               | rewrite js_mul_eq in H | rewrite js_div_eq in H ].

(** ** The operations respect [==]

    Two representations of one rational are the same JavaScript number:
    every operation maps equal numbers to equal numbers, so [rewrite] with an
    equation [==] works under them. *)

#[export] Instance js_add_Proper : Proper (Qeq ==> Qeq ==> Qeq) js_add.
Proof. intros a a' Ha b b' Hb. unfold js_add. now rewrite !Qred_correct, Ha, Hb. Qed.
#[export] Instance js_sub_Proper : Proper (Qeq ==> Qeq ==> Qeq) js_sub.
Proof. intros a a' Ha b b' Hb. unfold js_sub. now rewrite !Qred_correct, Ha, Hb. Qed.
#[export] Instance js_mul_Proper : Proper (Qeq ==> Qeq ==> Qeq) js_mul.
Proof. intros a a' Ha b b' Hb. unfold js_mul. now rewrite !Qred_correct, Ha, Hb. Qed.
#[export] Instance js_div_Proper : Proper (Qeq ==> Qeq ==> Qeq) js_div.
Proof. intros a a' Ha b b' Hb. unfold js_div. now rewrite !Qred_correct, Ha, Hb. Qed.

#[export] Instance js_le_Proper : Proper (Qeq ==> Qeq ==> eq) js_le.
Proof.
  intros a a' Ha b b' Hb. unfold js_le.
  destruct (Qle_bool a b) eqn:E1, (Qle_bool a' b') eqn:E2; auto;
    rewrite ?Qle_bool_iff in *; rewrite <- ?not_true_iff_false, ?Qle_bool_iff in *;
    exfalso; [apply E2 | apply E1]; [rewrite <- Ha, <- Hb | rewrite Ha, Hb]; assumption.
Qed.
#[export] Instance js_lt_Proper : Proper (Qeq ==> Qeq ==> eq) js_lt.
Proof.
  intros a a' Ha b b' Hb. unfold js_lt.
  change (negb (js_le b a) = negb (js_le b' a')). now rewrite (js_le_Proper b b' Hb a a' Ha).
Qed.
#[export] Instance js_eq_Proper : Proper (Qeq ==> Qeq ==> eq) js_eq.
Proof.
  intros a a' Ha b b' Hb. unfold js_eq.
  destruct (Qeq_bool a b) eqn:E1, (Qeq_bool a' b') eqn:E2; auto;
    rewrite ?Qeq_bool_iff in *; rewrite <- ?not_true_iff_false, ?Qeq_bool_iff in *;
    exfalso; [apply E2 | apply E1]; [rewrite <- Ha, <- Hb | rewrite Ha, Hb]; assumption.
Qed.

#[export] Instance Math_abs_Proper : Proper (Qeq ==> Qeq) Math_abs.
Proof. intros a a' Ha. unfold Math_abs. now rewrite Ha. Qed.
#[export] Instance Math_max_Proper : Proper (Qeq ==> Qeq ==> Qeq) Math_max.
Proof.
  intros a a' Ha b b' Hb. pose proof (js_le_Proper a a' Ha b b' Hb) as E.
  unfold js_le in E. unfold Math_max. rewrite E. now destruct (Qle_bool a' b').
Qed.
#[export] Instance Math_sign_Proper : Proper (Qeq ==> eq) Math_sign.
Proof. intros a a' Ha. unfold Math_sign. now rewrite Ha. Qed.

(** ** Reflection of the comparisons *)

Lemma js_ltP a b : reflect (a < b) (js_lt a b).
Proof.
  unfold js_lt. destruct (Qle_bool b a) eqn:E; constructor.
  - apply Qle_bool_iff in E. lra.
  - assert (~ b <= a) as Hn by (rewrite <- Qle_bool_iff; congruence). lra.
Qed.

Lemma js_leP a b : reflect (a <= b) (js_le a b).
Proof.
  unfold js_le. destruct (Qle_bool a b) eqn:E; constructor.
  - now apply Qle_bool_iff.
  - rewrite <- Qle_bool_iff. congruence.
Qed.

Lemma js_eqP a b : reflect (a == b) (js_eq a b).
Proof.
  unfold js_eq. destruct (Qeq_bool a b) eqn:E; constructor.
  - now apply Qeq_bool_iff.
  - rewrite <- Qeq_bool_iff. congruence.
Qed.

(** [js_case] splits on the first comparison of the goal and turns it into a
    proposition; the development's proofs by cases on the code's
    conditions use it. *)
Ltac js_case :=
  match goal with
  | |- context [js_lt ?a ?b] => destruct (js_ltP a b)
  | |- context [js_le ?a ?b] => destruct (js_leP a b)
  | |- context [js_eq ?a ?b] => destruct (js_eqP a b)
  end.

Ltac js_case_in H :=
  match type of H with
  | context [js_lt ?a ?b] => destruct (js_ltP a b)
  | context [js_le ?a ?b] => destruct (js_leP a b)
  | context [js_eq ?a ?b] => destruct (js_eqP a b)
  end.

(** [close_num] closes a closed comparison of numbers or integers by
    evaluation; witnesses use it on the hypotheses of a theorem. *)
Ltac close_num :=
  vm_compute; repeat match goal with |- _ /\ _ => split end;
  intros; first [reflexivity | congruence | discriminate].

(** [num] closes a linear goal over [Q] or over [Z]. *)
Ltac num := first [lra | lia].

(** ** Math functions *)

Lemma Math_floor_spec q :
  inject_Z (Math_floor q) <= q /\ q < inject_Z (Math_floor q) + 1.
Proof.
  unfold Math_floor. split; [apply Qfloor_le|].
  pose proof (Qlt_floor q) as H. rewrite inject_Z_plus in H. exact H.
Qed.

(** [Math.floor] is the one integer [z] with [z <= q < z + 1]. *)
Lemma Math_floor_unique q z :
  inject_Z z <= q -> q < inject_Z z + 1 -> Math_floor q = z.
Proof.
  intros H1 H2. destruct (Math_floor_spec q) as [F1 F2].
  assert (inject_Z (Math_floor q) < inject_Z z + 1) as A by lra.
  assert (inject_Z z < inject_Z (Math_floor q) + 1) as B by lra.
  change 1 with (inject_Z 1) in A, B.
  rewrite <- inject_Z_plus, <- Zlt_Qlt in A, B. lia.
Qed.

(** The two directions in which [Math.floor] is compared with an
    integer. *)
Lemma Math_floor_ge z q : inject_Z z <= q -> (z <= Math_floor q)%Z.
Proof.
  intro H. destruct (Math_floor_spec q) as [_ F].
  assert (inject_Z z < inject_Z (Math_floor q + 1)) as A
    by (rewrite inject_Z_plus; change (inject_Z 1) with 1; lra).
  rewrite <- Zlt_Qlt in A. lia.
Qed.

Lemma Math_floor_lt z q : q < inject_Z z -> (Math_floor q < z)%Z.
Proof.
  intro H. destruct (Math_floor_spec q) as [F _].
  assert (inject_Z (Math_floor q) < inject_Z z) as A by lra.
  now rewrite <- Zlt_Qlt in A.
Qed.

#[export] Instance Math_floor_Proper : Proper (Qeq ==> eq) Math_floor.
Proof.
  intros a a' Ha. apply Math_floor_unique; rewrite <- Ha; apply Math_floor_spec.
Qed.

Lemma Math_max_spec a b :
  (a <= b /\ Math_max a b = b) \/ (b < a /\ Math_max a b = a).
Proof.
  unfold Math_max. destruct (Qle_bool a b) eqn:E.
  - left. split; [now apply Qle_bool_iff | reflexivity].
  - right. split; [|reflexivity].
    assert (~ a <= b) by (rewrite <- Qle_bool_iff; congruence). lra.
Qed.

Lemma Math_sign_pos q : 0 < q -> Math_sign q = 1.
Proof.
  intro H. unfold Math_sign. destruct (q ?= 0) eqn:E; [| |reflexivity].
  - apply Qeq_alt in E. lra.
  - apply Qlt_alt in E. lra.
Qed.

Lemma Math_sign_neg q : q < 0 -> Math_sign q = -1.
Proof. intro H. unfold Math_sign. rewrite Qlt_alt in H. now rewrite H. Qed.

Lemma Math_sign_zero q : q == 0 -> Math_sign q = 0.
Proof. intro H. unfold Math_sign. rewrite Qeq_alt in H. now rewrite H. Qed.

(** [Qabs] bounded, as two comparisons. *)
Lemma Qabs_le_iff x y : Qabs x <= y <-> - y <= x /\ x <= y.
Proof. split; [apply Qabs_Qle_condition | intros; apply Qabs_Qle_condition; lra]. Qed.

(** ** The remainder on numbers *)

(** On a non-negative dividend and a positive divisor, [%] subtracts the
    largest multiple of the divisor that fits. *)
Lemma js_fmod_nonneg a b :
  0 <= a -> 0 < b -> js_fmod a b == a - b * inject_Z (Qfloor (a / b)).
Proof.
  intros Ha Hb. unfold js_fmod, Qtrunc.
  assert (0 <= a / b) as Hd.
  { apply Qle_shift_div_l; lra. }
  apply Qle_bool_iff in Hd. rewrite Hd. apply Qred_correct.
Qed.

(** The dividend is between one and two divisors: [%] subtracts exactly one
    divisor. *)
Lemma js_fmod_once a b : 0 < b -> b <= a < 2 * b -> js_fmod a b == a - b.
Proof.
  intros Hb [H1 H2]. rewrite js_fmod_nonneg by lra.
  assert (Qfloor (a / b) = 1%Z) as ->.
  { apply Math_floor_unique; change (inject_Z 1) with 1.
    - apply Qle_shift_div_l; lra.
    - apply Qlt_shift_div_r; lra. }
  change (inject_Z 1) with 1. lra.
Qed.

(** The result of [%] with a positive divisor and a non-negative dividend
    lies in [[0, b)]. *)
Lemma js_fmod_range a b : 0 <= a -> 0 < b -> 0 <= js_fmod a b < b.
Proof.
  intros Ha Hb. rewrite js_fmod_nonneg by lra.
  destruct (Math_floor_spec (a / b)) as [F1 F2]. unfold Math_floor in *.
  set (k := inject_Z (Qfloor (a / b))) in *.
  assert (a == b * (a / b)) as Ea by (field; lra).
  split.
  - assert (b * k <= b * (a / b)) by (apply Qmult_le_l; lra). lra.
  - assert (b * (a / b) < b * (k + 1)) by (apply Qmult_lt_l; lra). lra.
Qed.

(** ** Powers *)

Fixpoint qpow (q : Q) (n : nat) : Q :=
  match n with
  | O => 1
  | S n' => q * qpow q n'
  end.

Lemma qpow_pos q n : 0 < q -> 0 < qpow q n.
Proof.
  intro H. induction n as [|n IH]; simpl; [lra|].
  apply Qmult_lt_0_compat; assumption.
Qed.

(** Bernoulli's inequality for [1 + 1/k]: [(1 + 1/k)^n >= 1 + n/k]. *)
Lemma qpow_bernoulli (k : positive) n :
  1 + inject_Z (Z.of_nat n) * (1 # k) <= qpow (1 + (1 # k)) n.
Proof.
  assert (0 < 1 # k) as Hk by reflexivity.
  induction n as [|n IH]; simpl qpow.
  - change (inject_Z (Z.of_nat 0)) with 0. rewrite Qmult_0_l. lra.
  - rewrite Nat2Z.inj_succ, <- Z.add_1_r, inject_Z_plus. change (inject_Z 1) with 1.
    set (y := 1 # k) in *. set (x := inject_Z (Z.of_nat n)) in *.
    set (p := qpow (1 + y) n) in *.
    assert (0 <= x) as Hx by (unfold x; change 0 with (inject_Z 0); rewrite <- Zle_Qle; lia).
    assert ((1 + y) * (1 + x * y) <= (1 + y) * p) as M by (apply Qmult_le_l; lra).
    assert (0 <= x * y * y) as P by (apply Qmult_le_0_compat; [apply Qmult_le_0_compat|]; lra).
    assert ((1 + y) * (1 + x * y) == 1 + x * y + y + x * y * y) as E by ring.
    assert (1 + (x + 1) * y == 1 + x * y + y) as E' by ring.
    rewrite E'. rewrite E in M. lra.
Qed.

Lemma inject_Z_of_nat_S m : inject_Z (Z.of_nat (S m)) == inject_Z (Z.of_nat m) + 1.
Proof. rewrite Nat2Z.inj_succ, <- Z.add_1_r, inject_Z_plus. reflexivity. Qed.

Lemma inject_Z_of_nat_nonneg m : 0 <= inject_Z (Z.of_nat m).
Proof. change 0 with (inject_Z 0). rewrite <- Zle_Qle. lia. Qed.

(** A frame count that covers a non-negative rational. *)
Lemma Qceiling_nat x : 0 <= x -> x <= inject_Z (Z.of_nat (Z.to_nat (Qceiling x))).
Proof.
  intro H. pose proof (Qle_ceiling x) as C.
  assert (0 <= Qceiling x)%Z as C0 by (rewrite Zle_Qle; change (inject_Z 0) with 0; lra).
  now rewrite Z2Nat.id.
Qed.

(** A boolean test on [0 .. n] fails first somewhere, or never. *)
Lemma nat_first_false (f : nat -> bool) n :
  (exists m, (m <= n)%nat /\ f m = false /\ forall k, (k < m)%nat -> f k = true) \/
  (forall k, (k <= n)%nat -> f k = true).
Proof.
  induction n as [|n [[m [Hm [Fm Hk]]]|All]].
  - destruct (f 0%nat) eqn:F; [right | left].
    + intros k Hk. now replace k with 0%nat by lia.
    + exists 0%nat. repeat split; [lia | exact F | intros; lia].
  - left. exists m. repeat split; [lia | exact Fm | exact Hk].
  - destruct (f (S n)) eqn:F; [right | left].
    + intros k Hk. destruct (Nat.eq_dec k (S n)) as [->|]; [exact F | apply All; lia].
    + exists (S n). repeat split; [lia | exact F | intros k Hk; apply All; lia].
Qed.

(** ** Generic lemmas on options and lists the components share *)

Lemma nth_error_lt {A} (l : list A) n :
  (n < length l)%nat -> exists x, nth_error l n = Some x.
Proof.
  intro H. destruct (nth_error l n) eqn:E; [eauto|].
  apply nth_error_None in E. lia.
Qed.
