(* ===== verification/Float64.v ===== *)
(** Binary64 arithmetic where the script's result depends on it: the
    rounding of an exact rational to the nearest double, ties to even
    (IEEE 754 [roundTiesToEven], the rounding of every JavaScript
    operation), and the three operations [random] performs.  A double is
    [n * 2^e] with [|n| < 2^53] and [e >= -1074]; [round64] picks the
    exponent of its argument's binade (or the subnormal exponent -1074) and
    rounds the scaled value to an integer.  Overflow to [Infinity] is not
    modelled: the operands of [random] stay below [2^53]. *)

From Stdlib Require Import Qpower.
From S2P Require Import Prelude.

Open Scope Q_scope.

(** ** Definitions *)

Definition pow2 (e : Z) : Q := Qpower (inject_Z 2) e.

(** [floor(log2 x)] for [x > 0]: the logarithms of numerator and
    denominator bound it to two values, a comparison picks one. *)
Definition qlog2 (x : Q) : Z :=
  let k := (Z.log2 (Qnum x) - Z.log2 (Zpos (Qden x)))%Z in
  if Qle_bool (pow2 k) x then k else (k - 1)%Z.

(** The exponent of the last bit of a double in the binade of [x]. *)
Definition emin : Z := -1074.
Definition exponent (x : Q) : Z := Z.max emin (qlog2 x - 52).

(** Rounding to an integer, half to even. *)
Definition rne (m : Q) : Z :=
  let f := Qfloor m in
  match Qcompare (m - inject_Z f) (1#2) with
  | Lt => f
  | Gt => (f + 1)%Z
  | Eq => if Z.even f then f else (f + 1)%Z
  end.

(** The double nearest to [x], ties to even. *)
Definition round64 (x : Q) : Q :=
  match Qcompare x 0 with
  | Eq => 0
  | Gt => inject_Z (rne (x / pow2 (exponent x))) * pow2 (exponent x)
  | Lt => - (inject_Z (rne (- x / pow2 (exponent (- x)))) * pow2 (exponent (- x)))
  end.

(** The operations of JavaScript on doubles: the exact result, rounded. *)
Definition f64_add (a b : Q) : Q := round64 (a + b).
Definition f64_sub (a b : Q) : Q := round64 (a - b).
Definition f64_mul (a b : Q) : Q := round64 (a * b).

(** ** Powers of two *)

Lemma pow2_pos e : 0 < pow2 e.
Proof. apply Qpower_0_lt. reflexivity. Qed.

Lemma pow2_add a b : pow2 (a + b) == pow2 a * pow2 b.
Proof. apply Qpower_plus. discriminate. Qed.

Lemma pow2_le a b : (a <= b)%Z -> pow2 a <= pow2 b.
Proof. intro H. apply Qpower_le_compat_l; [exact H | discriminate]. Qed.

Lemma pow2_lt_inv a b : pow2 a < pow2 b -> (a < b)%Z.
Proof. intro H. apply (Qpower_lt_compat_l_inv (inject_Z 2)); [exact H | reflexivity]. Qed.

Lemma pow2_Z k : (0 <= k)%Z -> pow2 k == inject_Z (2 ^ k).
Proof. intro H. unfold pow2. now rewrite Zpower_Qpower. Qed.

Lemma pow2_opp e : pow2 e * pow2 (- e) == 1.
Proof. rewrite <- pow2_add, Z.add_opp_diag_r. reflexivity. Qed.

Lemma div_pow2_lt x e k : x < pow2 (k + e) -> x / pow2 e < pow2 k.
Proof.
  intro H. apply Qlt_shift_div_r; [apply pow2_pos|]. now rewrite <- pow2_add.
Qed.

Lemma div_pow2_ge x e k : pow2 (k + e) <= x -> pow2 k <= x / pow2 e.
Proof.
  intro H. apply Qle_shift_div_l; [apply pow2_pos|]. now rewrite <- pow2_add.
Qed.

(** ** The binade of a positive rational *)

Lemma Qdiv_lt_compat a b c d :
  0 < a -> a <= c -> 0 < d -> d < b -> a / b < c / d.
Proof.
  intros Ha Hac Hd Hdb.
  apply Qle_lt_trans with (c / b).
  - apply Qmult_le_compat_r; [exact Hac|]. apply Qinv_le_0_compat. lra.
  - apply Qmult_lt_l; [lra|]. apply (proj1 (Qinv_lt_contravar d b Hd ltac:(lra))). exact Hdb.
Qed.

Lemma Qdiv_lt_compat' a b c d :
  0 < a -> a < c -> 0 < d -> d <= b -> a / b < c / d.
Proof.
  intros Ha Hac Hd Hdb.
  apply Qlt_le_trans with (c / b).
  - apply Qmult_lt_r; [apply Qinv_lt_0_compat; lra | exact Hac].
  - apply (proj2 (Qmult_le_l _ _ c ltac:(lra))).
    destruct (Qeq_dec d b) as [E|E]; [rewrite E; apply Qle_refl|].
    apply Qlt_le_weak, (proj1 (Qinv_lt_contravar d b Hd ltac:(lra))). lra.
Qed.

(** The logarithms of numerator and denominator leave two candidates. *)
Lemma qlog2_candidates x :
  0 < x ->
  let k := (Z.log2 (Qnum x) - Z.log2 (Zpos (Qden x)))%Z in
  pow2 (k - 1) < x /\ x < pow2 (k + 1).
Proof.
  destruct x as [p q]. intros Hx k. cbn [Qnum Qden] in k.
  assert (0 < p)%Z as Hp by (unfold Qlt in Hx; simpl in Hx; lia).
  destruct (Z.log2_spec p Hp) as [P1 P2].
  destruct (Z.log2_spec (Zpos q) eq_refl) as [D1 D2].
  rewrite Qmake_Qdiv.
  pose proof (Z.log2_nonneg p). pose proof (Z.log2_nonneg (Zpos q)).
  assert (forall z, (0 <= z)%Z -> 0 < inject_Z (2 ^ z)) as Pz.
  { intros z Hz. rewrite <- pow2_Z by exact Hz. apply pow2_pos. }
  assert (0 < inject_Z p) as Ip by (rewrite Zlt_Qlt in Hp; exact Hp).
  unfold k. split.
  - replace (Z.log2 p - Z.log2 (Zpos q) - 1)%Z
      with (Z.log2 p - Z.succ (Z.log2 (Zpos q)))%Z by ring.
    unfold pow2. rewrite Qpower_minus by discriminate.
    rewrite <- !Zpower_Qpower by lia.
    apply Qdiv_lt_compat; [apply Pz; lia | rewrite <- Zle_Qle; exact P1 | |
                           rewrite <- Zlt_Qlt; exact D2].
    reflexivity.
  - replace (Z.log2 p - Z.log2 (Zpos q) + 1)%Z
      with (Z.succ (Z.log2 p) - Z.log2 (Zpos q))%Z by ring.
    unfold pow2. rewrite Qpower_minus by discriminate.
    rewrite <- !Zpower_Qpower by lia.
    apply Qdiv_lt_compat'; [exact Ip | rewrite <- Zlt_Qlt; exact P2 | apply Pz; lia |
                            rewrite <- Zle_Qle; exact D1].
Qed.

(** [qlog2 x] is [floor(log2 x)]. *)
Lemma qlog2_spec x : 0 < x -> pow2 (qlog2 x) <= x /\ x < pow2 (qlog2 x + 1).
Proof.
  intro Hx. destruct (qlog2_candidates x Hx) as [L U]. unfold qlog2.
  destruct (Qle_bool _ x) eqn:E.
  - apply Qle_bool_iff in E. auto.
  - split; [lra|]. rewrite Z.sub_add.
    apply Qnot_le_lt. intro C. apply Qle_bool_iff in C. congruence.
Qed.

Lemma qlog2_unique x a b :
  pow2 a <= x < pow2 (a + 1) -> pow2 b <= x < pow2 (b + 1) -> a = b.
Proof.
  intros [A1 A2] [B1 B2].
  destruct (Z.lt_trichotomy a b) as [L|[E|L]]; [|exact E|].
  - pose proof (pow2_le (a + 1) b ltac:(lia)). exfalso. lra.
  - pose proof (pow2_le (b + 1) a ltac:(lia)). exfalso. lra.
Qed.

Lemma qlog2_mono x y : 0 < x -> x <= y -> (qlog2 x <= qlog2 y)%Z.
Proof.
  intros Hx Hxy. destruct (qlog2_spec x Hx) as [X _]. destruct (qlog2_spec y ltac:(lra)) as [_ Y].
  assert (qlog2 x < qlog2 y + 1)%Z by (apply pow2_lt_inv; lra). lia.
Qed.

Lemma qlog2_Proper x y : 0 < x -> x == y -> qlog2 x = qlog2 y.
Proof.
  intros Hx E. apply (qlog2_unique x); [apply qlog2_spec, Hx|].
  rewrite E. apply qlog2_spec. rewrite <- E. exact Hx.
Qed.

(** ** Rounding to an integer *)

Lemma rne_range m : (Qfloor m <= rne m <= Qfloor m + 1)%Z.
Proof.
  unfold rne. destruct (_ ?= _); [destruct (Z.even _)|..]; lia.
Qed.

Lemma rne_int z : rne (inject_Z z) = z.
Proof.
  unfold rne. rewrite Qfloor_Z.
  destruct (Qcompare_spec (inject_Z z - inject_Z z) (1#2)) as [H|H|H];
    [exfalso; ring_simplify in H; discriminate H | reflexivity | exfalso].
  assert (inject_Z z - inject_Z z == 0) as E by ring. lra.
Qed.

#[export] Instance rne_Proper : Proper (Qeq ==> eq) rne.
Proof.
  intros m m' E. unfold rne. cbv zeta.
  assert (Qfloor m = Qfloor m') as F by (apply Qfloor_comp; exact E).
  rewrite <- F.
  assert ((m - inject_Z (Qfloor m) ?= 1#2) = (m' - inject_Z (Qfloor m) ?= 1#2)) as C
    by (apply Qcompare_comp; [unfold Qminus; apply Qplus_comp; [exact E|reflexivity] | reflexivity]).
  now rewrite C.
Qed.

Lemma rne_mono m1 m2 : m1 <= m2 -> (rne m1 <= rne m2)%Z.
Proof.
  intro H. pose proof (Qfloor_resp_le _ _ H) as F.
  pose proof (rne_range m1). pose proof (rne_range m2).
  destruct (Z.eq_dec (Qfloor m1) (Qfloor m2)) as [E|E]; [|lia].
  unfold rne. rewrite E.
  destruct (Qcompare_spec (m1 - inject_Z (Qfloor m2)) (1#2)) as [A|A|A];
    destruct (Qcompare_spec (m2 - inject_Z (Qfloor m2)) (1#2)) as [B|B|B];
    try destruct (Z.even _); lia || (exfalso; lra).
Qed.

Lemma rne_le_int m z : m <= inject_Z z -> (rne m <= z)%Z.
Proof. intro H. rewrite <- (rne_int z). now apply rne_mono. Qed.

Lemma rne_ge_int m z : inject_Z z <= m -> (z <= rne m)%Z.
Proof. intro H. rewrite <- (rne_int z). now apply rne_mono. Qed.

(** ** Rounding to a double *)

Lemma round64_pos x :
  0 < x -> round64 x = inject_Z (rne (x / pow2 (exponent x))) * pow2 (exponent x).
Proof. intro H. unfold round64. now rewrite (proj1 (Qgt_alt x 0) H). Qed.

Lemma exponent_Proper x y : 0 < x -> x == y -> exponent x = exponent y.
Proof. intros Hx E. unfold exponent. now rewrite (qlog2_Proper x y Hx E). Qed.

Lemma round64_pos_Proper x y : 0 < x -> x == y -> round64 x == round64 y.
Proof.
  intros Hx E. rewrite !round64_pos by (rewrite <- ?E; exact Hx).
  rewrite (exponent_Proper x y Hx E), E. reflexivity.
Qed.

#[export] Instance round64_Proper : Proper (Qeq ==> Qeq) round64.
Proof.
  intros x y E. destruct (Q_dec x 0) as [[L|L]|L].
  - unfold round64. rewrite (proj1 (Qlt_alt x 0) L).
    rewrite (proj1 (Qlt_alt y 0) ltac:(rewrite <- E; exact L)).
    rewrite (exponent_Proper (- x) (- y)) by (lra || now rewrite E).
    now rewrite E.
  - now apply round64_pos_Proper.
  - unfold round64. rewrite (proj1 (Qeq_alt x 0) L).
    rewrite (proj1 (Qeq_alt y 0) ltac:(rewrite <- E; exact L)). reflexivity.
Qed.

Lemma round64_nonneg x : 0 <= x -> 0 <= round64 x.
Proof.
  intro H. destruct (Qeq_dec x 0) as [E|E]; [rewrite E; apply Qle_refl|].
  rewrite round64_pos by lra.
  apply Qmult_le_0_compat; [|apply Qlt_le_weak, pow2_pos].
  change 0 with (inject_Z 0). rewrite <- Zle_Qle. apply rne_ge_int.
  apply Qle_shift_div_l; [apply pow2_pos|]. change (inject_Z 0) with 0. lra.
Qed.

(** Rounding is monotone. *)
Lemma round64_mono x y : 0 <= x -> x <= y -> round64 x <= round64 y.
Proof.
  intros Hx Hxy. destruct (Qeq_dec x 0) as [E|E].
  - rewrite E. apply round64_nonneg. lra.
  - assert (0 < x) as Px by lra. assert (0 < y) as Py by lra.
    rewrite !round64_pos by assumption.
    pose proof (qlog2_mono x y Px Hxy) as Lxy.
    destruct (qlog2_spec x Px) as [_ Xu]. destruct (qlog2_spec y Py) as [Yl _].
    unfold exponent.
    destruct (Z.eq_dec (Z.max emin (qlog2 x - 52)) (Z.max emin (qlog2 y - 52))) as [Ee|Ne].
    + rewrite Ee. set (e := Z.max emin (qlog2 y - 52)).
      apply Qmult_le_compat_r; [|apply Qlt_le_weak, pow2_pos].
      rewrite <- Zle_Qle. apply rne_mono.
      apply Qmult_le_compat_r; [exact Hxy | apply Qinv_le_0_compat, Qlt_le_weak, pow2_pos].
    + set (ex := Z.max emin (qlog2 x - 52)) in *. set (ey := Z.max emin (qlog2 y - 52)) in *.
      assert (ex < ey /\ ey = qlog2 y - 52 /\ qlog2 x + 1 <= ex + 53)%Z as [L [Ey Ex]]
        by (unfold ex, ey, emin in *; lia).
      assert (rne (x / pow2 ex) <= 2 ^ 53)%Z as R1.
      { apply rne_le_int. rewrite <- pow2_Z by lia. apply Qlt_le_weak, div_pow2_lt.
        apply Qlt_le_trans with (pow2 (qlog2 x + 1)); [exact Xu | apply pow2_le; lia]. }
      assert (2 ^ 52 <= rne (y / pow2 ey))%Z as R2.
      { apply rne_ge_int. rewrite <- pow2_Z by lia. apply div_pow2_ge.
        replace (52 + ey)%Z with (qlog2 y) by lia. exact Yl. }
      apply Qle_trans with (pow2 (ex + 53)).
      * rewrite pow2_add, (Qmult_comm (pow2 ex)).
        apply Qmult_le_compat_r; [|apply Qlt_le_weak, pow2_pos].
        rewrite (pow2_Z 53) by lia. rewrite <- Zle_Qle. exact R1.
      * apply Qle_trans with (pow2 (ey + 52)); [apply pow2_le; lia|].
        rewrite pow2_add, (Qmult_comm (pow2 ey)).
        apply Qmult_le_compat_r; [|apply Qlt_le_weak, pow2_pos].
        rewrite (pow2_Z 52) by lia. rewrite <- Zle_Qle. exact R2.
Qed.

(** An integer below [2^53] is a double. *)
Lemma round64_int z : (0 <= z < 2 ^ 53)%Z -> round64 (inject_Z z) == inject_Z z.
Proof.
  intros [H0 H1]. destruct (Z.eq_dec z 0) as [->|Nz]; [reflexivity|].
  assert (0 < inject_Z z) as Pz by (change 0 with (inject_Z 0); rewrite <- Zlt_Qlt; lia).
  rewrite round64_pos by exact Pz.
  destruct (qlog2_spec _ Pz) as [L _].
  assert (qlog2 (inject_Z z) < 53)%Z as Q53.
  { apply pow2_lt_inv. rewrite (pow2_Z 53) by lia.
    apply Qle_lt_trans with (inject_Z z); [exact L | rewrite <- Zlt_Qlt; exact H1]. }
  set (e := exponent (inject_Z z)).
  assert (e <= 0)%Z as He by (unfold e, exponent, emin; lia).
  assert (inject_Z z / pow2 e == inject_Z (z * 2 ^ (- e))) as D.
  { rewrite inject_Z_mult, <- pow2_Z by lia. unfold Qdiv.
    rewrite <- (Qmult_1_l (/ pow2 e)), <- (pow2_opp e). field.
    apply Qnot_eq_sym, Qlt_not_eq, pow2_pos. }
  rewrite D, rne_int, inject_Z_mult, <- pow2_Z by lia.
  rewrite <- Qmult_assoc, (Qmult_comm (pow2 (- e))), pow2_opp. ring.
Qed.
