(* ===== verification/Config.v ===== *)
(** Constants, the phase enumeration, the six globals and [random] of
    [src/index.js] (lines 4-39).  Integral constants are [Z], the others
    JavaScript numbers ([Q]).  [random] is computed in binary64 ([Float64]):
    its result depends on the rounding of line 39. *)

From S2P Require Import Prelude Float64.

Open Scope Q_scope.

(** ** Constants (lines 4-13) *)

Definition IMAGE_WIDTH : Q := 128.
Definition IMAGE_HEIGHT : Q := 128.
Definition IMAGE_COUNT : Z := 3.
Definition OFFSET : Z := 1.
Definition BASE_SPEED : Q := 5.
Definition ACCELERATION_DURATION_MIN : Z := 500.
Definition ACCELERATION_DURATION_MAX : Z := 1500.
Definition ACCELERATION_STEP : Q := 1.
Definition DECELERATION_MULTIPLIER : Q := 0.95.
Definition RETURN_MULTIPLIER : Q := 0.1.

(** ** The phases (lines 14-18)

    The script compares [state] only with [===] against the three members
    of [STATE]; an enumeration has the same observable behaviour as the
    numbers 1, 2, 3. *)
Inductive STATE : Type :=
| ACCELERATION
| DECELERATION
| RETURN.

Scheme Equality for STATE.

(** The order the phases are meant to be visited in, used to state that a
    frame never moves a spin back. *)
Definition STATE_rank (s : STATE) : nat :=
  match s with
  | ACCELERATION => 0
  | DECELERATION => 1
  | RETURN => 2
  end.

(** ** The image addresses (lines 21-27) *)

Definition imageUrls : list string :=
  [ "https://sun9-54.userapi.com/impg/OELoFrv6ScejF51Um0yVxpMkrwhLmRus36GIiA/IvNZhsWRzzM.jpg?size=180x238&quality=96&sign=442f1587ea2ca91fbaf78fb265d62418&type=album";
    "https://sun9-63.userapi.com/impg/EZJ9J5eN1D8LRFGZln5B8wQ7ddtoGwt_dHFerA/oG-_YKgA-zk.jpg?size=212x231&quality=96&sign=97aec432e5c14108cb2742b277c08e8e&type=album";
    "https://sun9-67.userapi.com/impg/tHva65TTOPiK35l9mwB-fDd2MFTBqT5TnCMFmA/txezb8XsCTY.jpg?size=180x213&quality=96&sign=ac83718a717176ec6dff98e3daf48a93&type=album";
    "https://sun9-71.userapi.com/impg/tLDcz5uYRmtBN9lxxdMsioZCRpUVWTAItC4_hQ/8dRX31ImxOc.jpg?size=159x182&quality=96&sign=9196a5b20aac98bf609bd7b303244a65&type=album";
    "https://sun9-58.userapi.com/impg/7YUqt0Fd6NpWTAZ_o1dw6EHnUmVxINrP1a-o9A/VUEBjRuh7XY.jpg?size=111x143&quality=96&sign=0aefcb6c6204d46edfd1a431919ad109&type=album" ]%string.

(** ** The globals (lines 28-33) *)

Record Globals : Type := mkGlobals {
  speed : Q;
  state : STATE;
  startIndex : Z;
  startTime : Q;
  accelerationDuration : Q;
  offset : Q
}.

Definition init_globals : Globals := {|
  speed := 0;
  state := RETURN;
  startIndex := 0;
  startTime := 0;
  accelerationDuration := 0;
  offset := 0
|}.

(** Assignments to one global, as the script's statements [speed = ...],
    [state = ...], [startIndex = ...], [offset = ...] perform them. *)
Definition set_speed (v : Q) (g : Globals) : Globals :=
  mkGlobals v (state g) (startIndex g) (startTime g) (accelerationDuration g) (offset g).
Definition set_state (v : STATE) (g : Globals) : Globals :=
  mkGlobals (speed g) v (startIndex g) (startTime g) (accelerationDuration g) (offset g).
Definition set_startIndex (v : Z) (g : Globals) : Globals :=
  mkGlobals (speed g) (state g) v (startTime g) (accelerationDuration g) (offset g).
Definition set_offset (v : Q) (g : Globals) : Globals :=
  mkGlobals (speed g) (state g) (startIndex g) (startTime g) (accelerationDuration g) v.

(** [gsimpl] computes the fields of assigned globals. *)
Ltac gsimpl :=
  cbn [speed state startIndex startTime accelerationDuration offset
       set_speed set_state set_startIndex set_offset] in *.

(** ** [random] (line 39)

    [r] is the value of [Math.random()], a double of [[0, 1)].  The
    duration it draws hinges on the rounding of the two operations, so
    they are computed in binary64 ([Float64]): the product and the sum are
    each rounded to the nearest double.  [max - min + 1] is an integer
    below [2^53] and exact. *)
Definition random (min max : Z) (r : Q) : Z :=
  Math_floor (f64_add (f64_mul r (f64_add (f64_sub (inject_Z max) (inject_Z min)) 1))
                      (inject_Z min)).

(** The largest double below 1, [1 - 2^-53]; V8's [Math.random()] returns
    the multiples of [2^-53] in [[0, 1)], this one included. *)
Definition Math_random_max : Q := Qmake (2 ^ 53 - 1) (2 ^ 53).

(** [random min max r] lies in [[min, max + 1]]: each rounding is monotone
    and leaves the integers [0], [max - min + 1], [min] and [max + 1] in
    place. *)
Lemma random_range (min max : Z) (r : Q) :
  (0 <= min <= max)%Z -> (max + 1 < 2 ^ 53)%Z -> 0 <= r < 1 ->
  (min <= random min max r <= max + 1)%Z.
Proof.
  intros Hmm Hmax [H0 H1]. unfold random, f64_add, f64_mul, f64_sub.
  assert (round64 (round64 (inject_Z max - inject_Z min) + 1) == inject_Z (max - min + 1)) as HN.
  { replace (inject_Z max - inject_Z min) with (inject_Z (max - min))
      by (unfold Qminus; rewrite <- inject_Z_opp, <- inject_Z_plus; reflexivity).
    rewrite round64_int by lia.
    change 1 with (inject_Z 1). rewrite <- inject_Z_plus. apply round64_int. lia. }
  rewrite HN.
  assert (0 <= inject_Z (max - min + 1)) as Hn0
    by (change 0 with (inject_Z 0); rewrite <- Zle_Qle; lia).
  set (a := round64 (r * inject_Z (max - min + 1))).
  assert (0 <= a <= inject_Z (max - min + 1)) as [A0 A1].
  { split.
    - apply round64_nonneg, Qmult_le_0_compat; lra.
    - rewrite <- (round64_int (max - min + 1)) by lia. apply round64_mono.
      + apply Qmult_le_0_compat; lra.
      + rewrite <- (Qmult_1_l (inject_Z (max - min + 1))) at 2.
        apply Qmult_le_compat_r; lra. }
  assert (inject_Z min <= round64 (a + inject_Z min) <= inject_Z (max + 1)) as [B0 B1].
  { assert (0 <= inject_Z min) by (change 0 with (inject_Z 0); rewrite <- Zle_Qle; lia).
    split.
    - rewrite <- (round64_int min) at 1 by lia. apply round64_mono; lra.
    - rewrite <- (round64_int (max + 1)) by lia. apply round64_mono; [lra|].
      replace (max + 1)%Z with (max - min + 1 + min)%Z by ring.
      rewrite inject_Z_plus. lra. }
  split; [now apply Math_floor_ge|].
  destruct (Math_floor_spec (round64 (a + inject_Z min))) as [F _].
  rewrite Zle_Qle. lra.
Qed.

(** The duration [random(500, 1500)] draws at the largest double below 1. *)
Lemma random_at_max :
  random ACCELERATION_DURATION_MIN ACCELERATION_DURATION_MAX Math_random_max
  = (ACCELERATION_DURATION_MAX + 1)%Z.
Proof. vm_compute. reflexivity. Qed.

(** ** Properties *)

(** C12: the acceleration durations the click listener draws.  For every
    value of [Math.random()] in [[0, 1)], [random(500, 1500)] returns an
    integer of [[500, 1501]], not of [[500, 1500]]: at the largest double
    below 1, [1 - 2^-53], the product [r * 1001] rounds to
    [1001 - 2^-43], the sum with 500 is a tie between two doubles and rounds
    to the even one, 1501, and the floor is 1501. *)
Theorem random_bounds :
  (forall r, 0 <= r < 1 ->
     (ACCELERATION_DURATION_MIN <= random ACCELERATION_DURATION_MIN ACCELERATION_DURATION_MAX r
        <= ACCELERATION_DURATION_MAX + 1)%Z) /\
  round64 Math_random_max == Math_random_max /\ 0 <= Math_random_max < 1 /\
  random ACCELERATION_DURATION_MIN ACCELERATION_DURATION_MAX Math_random_max
    = (ACCELERATION_DURATION_MAX + 1)%Z.
Proof.
  split; [intros r Hr; apply random_range; [unfold ACCELERATION_DURATION_MIN,
    ACCELERATION_DURATION_MAX; lia .. | exact Hr]|].
  split; [vm_compute; reflexivity|]. split; [close_num|]. exact random_at_max.
Qed.

Lemma random_bounds_witness :
  0 <= 1#2 < 1 /\
  (ACCELERATION_DURATION_MIN <= random ACCELERATION_DURATION_MIN ACCELERATION_DURATION_MAX (1#2)
     <= ACCELERATION_DURATION_MAX + 1)%Z.
Proof. split; [close_num|]. apply (proj1 random_bounds). close_num. Defined.
