(* ===== verification/Canvas.v ===== *)
(** The canvas 2D context, as far as [src/index.js] calls it: the canvas
    element's size, the fill and stroke styles, the current path and the
    painting calls.  A call is an action of a state-and-exception monad
    [CanvasM] over the context record; the pixels are not modelled, each
    painting call is recorded in [painted].  [drawImage] of [undefined]
    throws a [TypeError], as browsers do.  The context is the browser's
    object, shared by every call of [draw] and of [update]: the current path
    in particular persists from one call to the next. *)

From S2P Require Import Prelude.

Open Scope Q_scope.

(** ** JavaScript exceptions *)

Inductive js_error : Type := TypeError.

Inductive js_result (A : Type) : Type :=
| Ok (a : A)
| Throw (e : js_error).
Arguments Ok {A} a.
Arguments Throw {A} e.

(** ** The context *)

(** A subpath of the current path: its points and whether [closePath]
    closed it. *)
Record Subpath : Type := mkSubpath {
  sp_points : list (Q * Q);
  sp_closed : bool
}.

Section Canvas.

Context {Img : Type}.

Inductive Paint : Type :=
| PaintRect (style : string) (x y w h : Q)
| PaintImage (img : Img) (x y w h : Q)
| PaintStroke (style : string) (subpaths : list Subpath).

Record Context2D : Type := mkContext {
  cv_width : Q;
  cv_height : Q;
  fillStyle : string;
  strokeStyle : string;
  path : list Subpath;
  painted : list Paint
}.

(** Setting the size of the canvas element (line 121) clears it and resets
    its context: default styles, empty path. *)
Definition set_canvas_size (w h : Q) (c : Context2D) : Context2D :=
  mkContext w h "#000000" "#000000" [] [].

(** ** The monad *)

Definition CanvasM (A : Type) : Type := Context2D -> js_result A * Context2D.

Definition cret {A} (a : A) : CanvasM A := fun c => (Ok a, c).

Definition cbind {A B} (m : CanvasM A) (k : A -> CanvasM B) : CanvasM B :=
  fun c =>
    match m c with
    | (Ok a, c') => k a c'
    | (Throw e, c') => (Throw e, c')
    end.

Definition cget : CanvasM Context2D := fun c => (Ok c, c).

(** ** The context's methods and properties *)

Definition set_fillStyle (s : string) : CanvasM unit :=
  fun c => (Ok tt, mkContext (cv_width c) (cv_height c) s (strokeStyle c) (path c) (painted c)).

Definition set_strokeStyle (s : string) : CanvasM unit :=
  fun c => (Ok tt, mkContext (cv_width c) (cv_height c) (fillStyle c) s (path c) (painted c)).

Definition paint (p : Paint) : CanvasM unit :=
  fun c => (Ok tt, mkContext (cv_width c) (cv_height c) (fillStyle c) (strokeStyle c)
                              (path c) (painted c ++ [p])).

Definition set_path (sps : list Subpath) : CanvasM unit :=
  fun c => (Ok tt, mkContext (cv_width c) (cv_height c) (fillStyle c) (strokeStyle c)
                              sps (painted c)).

Definition fillRect (x y w h : Q) : CanvasM unit :=
  fun c => paint (PaintRect (fillStyle c) x y w h) c.

(** [drawImage(image, ...)] with [image] [undefined] (an index out of the
    array, or [NaN]) throws. *)
Definition drawImage (image : option Img) (x y w h : Q) : CanvasM unit :=
  match image with
  | Some i => paint (PaintImage i x y w h)
  | None => fun c => (Throw TypeError, c)
  end.

Definition moveTo (x y : Q) : CanvasM unit :=
  fun c => set_path (path c ++ [mkSubpath [(x, y)] false]) c.

(** [lineTo] extends the last subpath; on an empty path it starts one. *)
Definition lineTo (x y : Q) : CanvasM unit :=
  fun c =>
    match rev (path c) with
    | [] => set_path [mkSubpath [(x, y)] false] c
    | sp :: rest =>
        set_path (rev rest ++ [mkSubpath (sp_points sp ++ [(x, y)]) (sp_closed sp)]) c
    end.

(** [closePath] closes the last subpath and starts a new one at its first
    point; on an empty path it does nothing. *)
Definition closePath : CanvasM unit :=
  fun c =>
    match rev (path c) with
    | [] => (Ok tt, c)
    | sp :: rest =>
        set_path (rev rest ++ [mkSubpath (sp_points sp) true;
                               mkSubpath (firstn 1 (sp_points sp)) false]) c
    end.

(** [stroke] paints every subpath of the current path; the path is kept. *)
Definition stroke : CanvasM unit :=
  fun c => paint (PaintStroke (strokeStyle c) (path c)) c.

(** ** Monad lemmas *)

Lemma cbind_Ok {A B} (m : CanvasM A) (k : A -> CanvasM B) c a c' :
  m c = (Ok a, c') -> cbind m k c = k a c'.
Proof. unfold cbind. now intros ->. Qed.

Lemma cbind_Throw {A B} (m : CanvasM A) (k : A -> CanvasM B) c e c' :
  m c = (Throw e, c') -> cbind m k c = (Throw e, c').
Proof. unfold cbind. now intros ->. Qed.

(** [lineTo] and [closePath] act on the last subpath of the path. *)
Lemma lineTo_snoc x y w h fs ss p sp pt :
  lineTo x y (mkContext w h fs ss (p ++ [sp]) pt)
  = (Ok tt, mkContext w h fs ss (p ++ [mkSubpath (sp_points sp ++ [(x, y)]) (sp_closed sp)]) pt).
Proof. unfold lineTo, set_path. simpl. rewrite rev_app_distr. simpl. now rewrite rev_involutive. Qed.

Lemma closePath_snoc w h fs ss p sp pt :
  closePath (mkContext w h fs ss (p ++ [sp]) pt)
  = (Ok tt, mkContext w h fs ss (p ++ [mkSubpath (sp_points sp) true;
                                       mkSubpath (firstn 1 (sp_points sp)) false]) pt).
Proof. unfold closePath, set_path. simpl. rewrite rev_app_distr. simpl. now rewrite rev_involutive. Qed.

End Canvas.

Arguments Paint : clear implicits.
Arguments Context2D : clear implicits.
Arguments CanvasM : clear implicits.

Declare Scope canvas_scope.
Delimit Scope canvas_scope with canvas.
Notation "x <- m ;; k" := (cbind m (fun x => k))
  (at level 61, m at next level, right associativity) : canvas_scope.
Notation "m ;; k" := (cbind m (fun _ => k))
  (at level 61, right associativity) : canvas_scope.
