(* ===== verification/Render.v ===== *)
(** [draw] of [src/index.js] (lines 41-65) and the settle highlight of
    [update] (lines 111-112), written in the canvas monad of [Canvas] call
    for call.  [images] is the script's global array of decoded images,
    read, never written, by [draw]. *)

From S2P Require Import Prelude Config Canvas.

Open Scope Q_scope.
Local Open Scope canvas_scope.

Section Render.

Context {Img : Type}.

(** [a % n] on integral numbers: [NaN] (here [None]) when [n] is 0. *)
Definition js_irem (a n : Z) : option Z :=
  if (n =? 0)%Z then None else Some (Z.rem a n).

(** [images[k]]: [undefined] for [NaN], a negative or a too large index. *)
Definition image_at (images : list Img) (k : option Z) : option Img :=
  match k with
  | Some z => if (z <? 0)%Z then None else nth_error images (Z.to_nat z)
  | None => None
  end.

(** [for (let index = lo; index < hi; index++) body(index)]: the body runs
    for [lo], [lo + 1], ..., [hi - 1]. *)
Fixpoint js_for_from (n : nat) (index : Z) (body : Z -> CanvasM Img unit)
  : CanvasM Img unit :=
  match n with
  | O => cret tt
  | S n' => body index ;; js_for_from n' (index + 1)%Z body
  end.

Definition js_for (lo hi : Z) (body : Z -> CanvasM Img unit) : CanvasM Img unit :=
  js_for_from (Z.to_nat (hi - lo)) lo body.

(** The body of the loop of [draw] (lines 49-57). *)
Definition draw_slot (images : list Img) (g : Globals) (index : Z) : CanvasM Img unit :=
  let imagesLength := Z.of_nat (length images) in
  let imageIndex := if (index <? 0)%Z then (index + imagesLength)%Z else index in
  let image := image_at images (js_irem (imageIndex + startIndex g) imagesLength) in
  drawImage image (IMAGE_WIDTH * inject_Z index - offset g)%js 0 IMAGE_WIDTH IMAGE_HEIGHT.

(** [draw] (lines 41-65).  The canvas size is read from the element; no
    call of [draw] changes it. *)
Definition draw (images : list Img) (g : Globals) : CanvasM Img unit :=
  c <- cget ;;
  (let center := inject_Z (Math_floor (cv_width c / 2)%js) in
   set_fillStyle "#ffffff" ;;
   fillRect 0 0 (cv_width c) (cv_height c) ;;
   js_for (- OFFSET) (IMAGE_COUNT + OFFSET) (draw_slot images g) ;;
   moveTo (center + 0.5)%js 0 ;;
   lineTo (center + 0.5)%js (cv_height c) ;;
   closePath ;;
   set_strokeStyle "rgba(0, 0, 0, 0.5)" ;;
   stroke).

(** The highlight of the winning slot (lines 111-112). *)
Definition highlight (index : Z) (off : Q) : CanvasM Img unit :=
  set_fillStyle "rgba(255, 0, 255, 0.2)" ;;
  fillRect (inject_Z index * IMAGE_WIDTH - off)%js 0 IMAGE_WIDTH IMAGE_HEIGHT.

(** ** What a slot paints *)

(** The paint a slot of the loop is meant to produce: the image at
    [(slot + startIndex) mod images.length], at [IMAGE_WIDTH * slot - offset]. *)
Definition slot_paint (images : list Img) (g : Globals) (slot : Z) (p : Paint Img) : Prop :=
  exists im,
    nth_error images (Z.to_nat ((slot + startIndex g) mod Z.of_nat (length images))) = Some im /\
    p = PaintImage im (IMAGE_WIDTH * inject_Z slot - offset g)%js 0 IMAGE_WIDTH IMAGE_HEIGHT.

(** The integers [i], [i + 1], ..., [i + n - 1]. *)
Fixpoint zseq (i : Z) (n : nat) : list Z :=
  match n with
  | O => []
  | S n' => i :: zseq (i + 1)%Z n'
  end.

(** The divider of [draw] (lines 60-62): the segment, closed, and the
    subpath [closePath] opens. *)
Definition divider_subpaths (x h : Q) : list Subpath :=
  [mkSubpath [(x, 0); (x, h)] true; mkSubpath [(x, 0)] false].

(** ** Lemmas *)

(** The code's index of a slot, with its correction for the negative slot,
    is the slot plus [startIndex] modulo the number of images, the formula
    of the reel's circular addressing. *)
Lemma slot_index_mod (len si index : Z) :
  (0 < len)%Z -> (0 <= si)%Z -> (- len <= index)%Z ->
  js_irem ((if (index <? 0)%Z then (index + len)%Z else index) + si) len
  = Some ((index + si) mod len)%Z.
Proof.
  intros Hl Hs Hi. unfold js_irem.
  destruct (Z.eqb_spec len 0) as [E|_]; [lia|]. f_equal.
  destruct (Z.ltb_spec index 0).
  - rewrite Z.rem_mod_nonneg by lia.
    replace (index + len + si)%Z with (index + si + 1 * len)%Z by ring.
    now rewrite Z.mod_add by lia.
  - apply Z.rem_mod_nonneg; lia.
Qed.

Lemma image_at_mod (images : list Img) (k : Z) :
  (0 < Z.of_nat (length images))%Z ->
  exists im, image_at images (Some (k mod Z.of_nat (length images))%Z) = Some im /\
             nth_error images (Z.to_nat (k mod Z.of_nat (length images))) = Some im.
Proof.
  intro Hl. simpl.
  pose proof (Z.mod_pos_bound k (Z.of_nat (length images)) Hl) as [B1 B2].
  destruct (Z.ltb_spec (k mod Z.of_nat (length images)) 0); [lia|].
  destruct (nth_error_lt images (Z.to_nat (k mod Z.of_nat (length images)))) as [im Him];
    [lia|].
  eauto.
Qed.

(** A loop whose every iteration paints one thing paints them in order. *)
Lemma js_for_from_paints (P : Z -> Paint Img -> Prop) n i body c :
  (forall k c', In k (zseq i n) -> exists p, P k p /\ body k c' = paint p c') ->
  exists ps, Forall2 P (zseq i n) ps /\
    js_for_from n i body c
    = (Ok tt, mkContext (cv_width c) (cv_height c) (fillStyle c) (strokeStyle c)
                        (path c) (painted c ++ ps)).
Proof.
  revert i c. induction n as [|n IH]; intros i c H; simpl.
  - exists []. split; [constructor|]. destruct c; simpl. now rewrite app_nil_r.
  - destruct (H i c (or_introl eq_refl)) as [p [Hp Hb]].
    unfold cbind at 1. rewrite Hb.
    destruct (IH (i + 1)%Z (snd (paint p c))) as [ps [Hps Hrun]].
    { intros k c' Hk. apply H. now right. }
    exists (p :: ps). split; [now constructor|].
    simpl in Hrun |- *. rewrite Hrun. now rewrite <- app_assoc.
Qed.

Lemma draw_slot_paint images g index c :
  (0 < Z.of_nat (length images))%Z -> (0 <= startIndex g)%Z ->
  (- Z.of_nat (length images) <= index)%Z ->
  exists p, slot_paint images g index p /\ draw_slot images g index c = paint p c.
Proof.
  intros Hl Hs Hi. unfold draw_slot. rewrite slot_index_mod by assumption.
  destruct (image_at_mod images (index + startIndex g) Hl) as [im [H1 H2]].
  rewrite H1. exists (PaintImage im (IMAGE_WIDTH * inject_Z index - offset g)%js 0
                                IMAGE_WIDTH IMAGE_HEIGHT).
  split; [exists im; auto | reflexivity].
Qed.

(** ** Properties *)

Lemma draw_paints (images : list Img) g c :
  (0 < Z.of_nat (length images))%Z -> (0 <= startIndex g)%Z ->
  exists ps,
    Forall2 (slot_paint images g) [-1; 0; 1; 2; 3]%Z ps /\
    draw images g c =
      (Ok tt,
       let x := (inject_Z (Math_floor (cv_width c / 2)%js) + 0.5)%js in
       let p' := path c ++ divider_subpaths x (cv_height c) in
       mkContext (cv_width c) (cv_height c) "#ffffff" "rgba(0, 0, 0, 0.5)" p'
         (painted c ++ PaintRect "#ffffff" 0 0 (cv_width c) (cv_height c)
                    :: ps ++ [PaintStroke "rgba(0, 0, 0, 0.5)" p'])).
Proof.
  intros Hl Hs.
  set (c1 := mkContext (cv_width c) (cv_height c) "#ffffff" (strokeStyle c) (path c)
                       (painted c ++ [PaintRect "#ffffff" 0 0 (cv_width c) (cv_height c)])).
  destruct (js_for_from_paints (slot_paint images g) 5 (-1) (draw_slot images g) c1)
    as [ps [Hps Hrun]].
  { intros k c' Hk. apply draw_slot_paint; auto. simpl in Hk. lia. }
  exists ps. split; [exact Hps|].
  unfold draw, js_for. cbn [cbind cget set_fillStyle fillRect paint].
  change (Z.to_nat (IMAGE_COUNT + OFFSET - - OFFSET)) with 5%nat.
  change (- OFFSET)%Z with (-1)%Z.
  cbn [cv_width cv_height fillStyle strokeStyle path painted].
  fold c1. rewrite (cbind_Ok _ _ _ _ _ Hrun).
  unfold cbind at 1, moveTo, set_path. cbn [cv_width cv_height fillStyle strokeStyle path painted c1].
  unfold cbind at 1. rewrite lineTo_snoc.
  unfold cbind at 1. rewrite closePath_snoc.
  unfold cbind, set_strokeStyle, stroke, paint, divider_subpaths.
  cbn [cv_width cv_height fillStyle strokeStyle path painted c1 sp_points sp_closed app firstn].
  now rewrite <- !app_assoc.
Qed.

(** C11: when there is at least one image and [startIndex] is not negative,
    [draw] does not throw; it fills the canvas white, paints for each slot
    [-1 .. 3] the image at [(slot + startIndex) mod images.length] at
    [IMAGE_WIDTH * slot - offset], appends the divider segment to the
    current path and strokes the whole path, the dividers of all earlier
    frames included (the path is never reset). *)
Theorem draw_spec (images : list Img) g c :
  (0 < Z.of_nat (length images))%Z -> (0 <= startIndex g)%Z ->
  exists ps,
    Forall2 (slot_paint images g) [-1; 0; 1; 2; 3]%Z ps /\
    draw images g c =
      (Ok tt,
       let x := (inject_Z (Math_floor (cv_width c / 2)%js) + 0.5)%js in
       let p' := path c ++ divider_subpaths x (cv_height c) in
       mkContext (cv_width c) (cv_height c) "#ffffff" "rgba(0, 0, 0, 0.5)" p'
         (painted c ++ PaintRect "#ffffff" 0 0 (cv_width c) (cv_height c)
                    :: ps ++ [PaintStroke "rgba(0, 0, 0, 0.5)" p'])).
Proof. intros; apply draw_paints; assumption. Qed.


(** C19: [draw] is not a function of the reel's state.  Two calls of
    [draw] on the same images and the same globals, the second on the
    context the first left, paint different commands: the divider of the
    first call is still on the current path (there is no [beginPath]), and
    the second [stroke] paints it again with the new one. *)
Theorem draw_twice_differs (images : list Img) g c :
  (0 < Z.of_nat (length images))%Z -> (0 <= startIndex g)%Z ->
  let c1 := snd (draw images g c) in
  let c2 := snd (draw images g c1) in
  exists new1 new2,
    painted c1 = painted c ++ new1 /\ painted c2 = painted c1 ++ new2 /\ new1 <> new2.
Proof.
  intros Hl Hs c1 c2.
  destruct (draw_paints images g c Hl Hs) as [ps1 [_ E1]].
  destruct (draw_paints images g c1 Hl Hs) as [ps2 [_ E2]].
  unfold c2, c1 in *. rewrite E1 in E2 |- *. rewrite E2. cbn [snd painted path cv_width cv_height].
  eexists _, _. split; [reflexivity|]. split; [reflexivity|].
  intro H. injection H as H. apply app_inj_tail in H as [_ H]. injection H as H.
  apply (f_equal (@length _)) in H. rewrite !length_app in H. simpl in H. lia.
Qed.

End Render.

Lemma draw_spec_witness :
  (0 < Z.of_nat (length [10; 11; 12]%nat))%Z /\ (0 <= startIndex init_globals)%Z /\
  exists ps,
    Forall2 (slot_paint [10; 11; 12]%nat init_globals) [-1; 0; 1; 2; 3]%Z ps /\
    draw [10; 11; 12]%nat init_globals (set_canvas_size 384 128 (mkContext 0 0 "" "" [] [])) =
      (Ok tt,
       let c := set_canvas_size 384 128 (mkContext 0 0 "" "" [] []) in
       let x := (inject_Z (Math_floor (cv_width c / 2)%js) + 0.5)%js in
       let p' := path c ++ divider_subpaths x (cv_height c) in
       mkContext (cv_width c) (cv_height c) "#ffffff" "rgba(0, 0, 0, 0.5)" p'
         (painted c ++ PaintRect "#ffffff" 0 0 (cv_width c) (cv_height c)
                    :: ps ++ [PaintStroke "rgba(0, 0, 0, 0.5)" p'])).
Proof.
  split; [close_num|]. split; [close_num|].
  apply draw_spec; close_num.
Defined.

Lemma draw_twice_differs_witness :
  (0 < Z.of_nat (length [10; 11; 12]%nat))%Z /\ (0 <= startIndex init_globals)%Z /\
  let c := set_canvas_size 384 128 (mkContext 0 0 "" "" [] []) in
  let c1 := snd (draw [10; 11; 12]%nat init_globals c) in
  let c2 := snd (draw [10; 11; 12]%nat init_globals c1) in
  exists new1 new2,
    painted c1 = painted c ++ new1 /\ painted c2 = painted c1 ++ new2 /\ new1 <> new2.
Proof.
  split; [close_num|]. split; [close_num|].
  apply draw_twice_differs; close_num.
Defined.
