(* ===== verification/Reel.v ===== *)
(** [update] of [src/index.js] (lines 67-118): one animation frame of the
    reel.  Each part of its body is a definition of its own, in the order of
    the source: the end of the acceleration on elapsed time
    ([accelerationCheck]), the wrap-around of [offset] ([wrapOffset]), the
    call of [draw], the slot under the centre ([centerIndex]), the motion of
    the phase ([motion], with the restoring step [returnStep]) and the
    continuation test ([continues]); then either a new animation frame or
    the settle: the highlight and the winner on the console.  [tick] is the
    same transition on the globals alone. *)

From S2P Require Import Prelude Config Canvas Render.

Open Scope Q_scope.

(** ** The parts of [update] *)

(** Lines 69-73. *)
Definition accelerationCheck (now : Q) (g : Globals) : Globals :=
  let deltaTime := (now - startTime g)%js in
  if (deltaTime > accelerationDuration g)%js && STATE_beq (state g) ACCELERATION
  then set_state DECELERATION g
  else g.

(** Lines 75-78.  [imagesLength] is [images.length]. *)
Definition wrapOffset (imagesLength : Z) (g : Globals) : Globals :=
  if (offset g > IMAGE_WIDTH)%js
  then set_offset (js_fmod (offset g) IMAGE_WIDTH)
         (set_startIndex (Z.rem (startIndex g + 1) imagesLength) g)
  else g.

(** Lines 82-83: the slot whose image covers the centre of the canvas. *)
Definition centerIndex (g : Globals) : Z :=
  let center := (IMAGE_WIDTH * inject_Z IMAGE_COUNT / 2)%js in
  Math_floor ((center + offset g) / IMAGE_WIDTH)%js.

(** Lines 95-103: the restoring step of RETURN, from the offset [off] the
    frame has reached, toward the slot [index - halfCount]. *)
Definition returnStep (index : Z) (off : Q) : Q :=
  let halfCount := Math_floor (inject_Z IMAGE_COUNT / 2)%js in
  let distance := (IMAGE_WIDTH * inject_Z (index - halfCount) - off)%js in
  let step := (distance * RETURN_MULTIPLIER)%js in
  let off' := (off + Math_max 0.1 (Math_abs step) * Math_sign step)%js in
  if (Math_abs off' <= 0.1)%js then 0 else off'.

(** Lines 85-104. *)
Definition motion (index : Z) (g : Globals) : Globals :=
  let g1 := set_offset (offset g + speed g)%js g in
  match state g1 with
  | ACCELERATION => set_speed (speed g1 + ACCELERATION_STEP)%js g1
  | DECELERATION =>
      let s := (speed g1 * DECELERATION_MULTIPLIER)%js in
      if (s < 0.01)%js then set_state RETURN (set_speed 0 g1) else set_speed s g1
  | RETURN => set_offset (returnStep index (offset g1)) g1
  end.

(** Line 106: whether [update] asks for another frame. *)
Definition continues (g : Globals) : bool :=
  (speed g > 0)%js || (offset g !== 0)%js.

(** Line 109. *)
Definition winner (index startIndex imagesLength : Z) : Z :=
  Z.rem (index + startIndex) imagesLength.

(** The globals after a frame whose [draw] did not throw, and the centre
    index the frame computed. *)
Definition tick (imagesLength : Z) (now : Q) (g : Globals) : Globals * Z :=
  let g2 := wrapOffset imagesLength (accelerationCheck now g) in
  let index := centerIndex g2 in
  (motion index g2, index).

(** The last lines of the RETURN branch (99-103), on the offset and the
    [step] of line 97: a step of at least 0.1 in the direction of [step],
    and the snap to 0 within 0.1 of 0. *)
Definition restore (off step : Q) : Q :=
  let off' := (off + Math_max 0.1 (Math_abs step) * Math_sign step)%js in
  if (Math_abs off' <= 0.1)%js then 0 else off'.

(** ** The console *)

(** The console calls of the script: [console.group], the two
    [console.log] of the winner, [console.groupEnd], [console.time] and
    [console.timeEnd] of the loading, and [console.log(images)], recorded
    by the number of images. *)
Inductive LogEntry : Type :=
| LogGroup (label : string)
| LogIndex (index : Z)
| LogImage (url : option string)
| LogGroupEnd
| LogTime (label : string)
| LogTimeEnd (label : string)
| LogImages (count : nat).

(** Lines 113-116. [imageUrls[winner]] is [undefined] out of range. *)
Definition winner_log (w : Z) : list LogEntry :=
  [LogGroup "Winner"; LogIndex w; LogImage (image_at imageUrls (Some w)); LogGroupEnd].

(** ** The page's state and [update] *)

Section Update.

Context {Img : Type}.

(** The globals, the shared canvas context, the number of animation-frame
    callbacks of [update] requested and not yet run, and the console. *)
Record World : Type := mkWorld {
  globals : Globals;
  ctx : Context2D Img;
  frames : nat;
  console : list LogEntry
}.

(** [update] (lines 67-118), run as the callback of an animation frame
    ([frames] already counts it as consumed).  An exception of [draw]
    escapes: the rest of the body is skipped and no frame is requested. *)
Definition update (images : list Img) (now : Q) (w : World) : World * js_result unit :=
  let imagesLength := Z.of_nat (length images) in
  let g2 := wrapOffset imagesLength (accelerationCheck now (globals w)) in
  match draw images g2 (ctx w) with
  | (Throw e, c) => (mkWorld g2 c (frames w) (console w), Throw e)
  | (Ok _, c) =>
      let index := centerIndex g2 in
      let g3 := motion index g2 in
      if continues g3
      then (mkWorld g3 c (S (frames w)) (console w), Ok tt)
      else
        let c' := snd (highlight index (offset g3) c) in
        (mkWorld g3 c' (frames w)
                 (console w ++ winner_log (winner index (startIndex g3) imagesLength)),
         Ok tt)
  end.

End Update.

Arguments World : clear implicits.

(** ** The restoring step *)

Lemma returnStep_restore index off :
  returnStep index off
  = restore off ((IMAGE_WIDTH * inject_Z (index - 1) - off) * RETURN_MULTIPLIER)%js.
Proof.
  unfold returnStep. change (Math_floor (inject_Z IMAGE_COUNT / 2)%js) with 1%Z.
  reflexivity.
Qed.


(** The snap of [restore]: 0 within 0.1 of 0, the moved offset otherwise. *)
Lemma restore_snap x :
  (if (Math_abs x <= 0.1)%js then 0 else x) == 0 /\ - (1#10) <= x <= 1#10 \/
  (if (Math_abs x <= 0.1)%js then 0 else x) = x /\ ~ (- (1#10) <= x <= 1#10).
Proof.
  unfold Math_abs. js_case.
  - left. split; [reflexivity|]. now apply Qabs_le_iff.
  - right. split; [reflexivity|]. now rewrite <- Qabs_le_iff.
Qed.

Lemma restore_pos off s : 0 < s ->
  exists x, ((1#10) <= s /\ x == off + s \/ s < 1#10 /\ x == off + (1#10)) /\
    (restore off s == 0 /\ - (1#10) <= x <= 1#10 \/ restore off s = x /\ ~ (- (1#10) <= x <= 1#10)).
Proof.
  intro Hs. unfold restore. rewrite (Math_sign_pos s Hs).
  eexists. split; [|apply restore_snap].
  assert (Math_abs s == s) as Ha by (apply Qabs_pos; lra).
  destruct (Math_max_spec 0.1 (Math_abs s)) as [[H ->]|[H ->]]; rewrite Ha in *;
    [left|right]; split; auto; js_norm; ring.
Qed.

Lemma restore_neg off s : s < 0 ->
  exists x, ((1#10) <= - s /\ x == off + s \/ - s < 1#10 /\ x == off - (1#10)) /\
    (restore off s == 0 /\ - (1#10) <= x <= 1#10 \/ restore off s = x /\ ~ (- (1#10) <= x <= 1#10)).
Proof.
  intro Hs. unfold restore. rewrite (Math_sign_neg s Hs).
  eexists. split; [|apply restore_snap].
  assert (Math_abs s == - s) as Ha by (apply Qabs_neg; lra).
  destruct (Math_max_spec 0.1 (Math_abs s)) as [[H ->]|[H ->]]; rewrite Ha in *;
    [left|right]; split; auto; js_norm; ring.
Qed.

Lemma restore_zero off s : s == 0 ->
  restore off s == 0 /\ - (1#10) <= off <= 1#10 \/ restore off s == off /\ ~ (- (1#10) <= off <= 1#10).
Proof.
  intro Hs. unfold restore. rewrite (Math_sign_zero s Hs).
  destruct (restore_snap (js_add off (js_mul (Math_max 0.1 (Math_abs s)) 0)))
    as [[-> H]|[-> H]]; js_norm_in H; js_norm.
  - left. split; [reflexivity|]. setoid_rewrite Qmult_0_r in H. lra.
  - right. setoid_rewrite Qmult_0_r in H. setoid_rewrite Qmult_0_r. split; [ring|lra].
Qed.

#[export] Instance restore_Proper : Proper (Qeq ==> Qeq ==> Qeq) restore.
Proof.
  intros o o' Ho t t' Ht. unfold restore.
  assert (Math_sign t = Math_sign t') as Es by now rewrite Ht.
  assert (Math_max 0.1 (Math_abs t) == Math_max 0.1 (Math_abs t')) as Em by now rewrite Ht.
  assert ((o + Math_max 0.1 (Math_abs t) * Math_sign t)%js
          == (o' + Math_max 0.1 (Math_abs t') * Math_sign t')%js) as Ex
    by now rewrite Es, Em, Ho.
  rewrite Ex. destruct (Math_abs _ <= 0.1)%js; [reflexivity | exact Ex].
Qed.

#[export] Instance returnStep_Proper index : Proper (Qeq ==> Qeq) (returnStep index).
Proof. intros o o' Ho. rewrite !returnStep_restore. now rewrite Ho. Qed.

(** Below half a width the reel is pulled back to offset 0: the restoring
    step either settles it or leaves it above 0.1 and at least 0.1 lower. *)
Lemma returnStep_low_step o :
  ((IMAGE_WIDTH * inject_Z (1 - 1) - o) * RETURN_MULTIPLIER)%js == - (1#10) * o.
Proof.
  unfold RETURN_MULTIPLIER, IMAGE_WIDTH. replace (inject_Z (1 - 1)) with 0 by reflexivity.
  js_norm. ring.
Qed.

(** The restoring step settles the reel only from at most 0.2 past its
    slot. *)
Lemma returnStep_settles o : 0 <= o < 64 -> returnStep 1 o == 0 -> o <= 1#5.
Proof.
  intros Ho Z. rewrite returnStep_restore in Z.
  set (s := (_ * RETURN_MULTIPLIER)%js) in Z.
  assert (s == - (1#10) * o) as Hs by apply returnStep_low_step.
  destruct (Qeq_dec o 0) as [E|E]; [lra|].
  destruct (restore_neg o s) as [x [Hx [[R N]|[R N]]]]; [lra | lra | rewrite R in Z; lra].
Qed.

Lemma returnStep_low o :
  0 <= o < 64 -> returnStep 1 o == 0 \/ (1#10 < returnStep 1 o /\ returnStep 1 o <= o - (1#10)).
Proof.
  intro Ho. rewrite returnStep_restore.
  set (s := (_ * RETURN_MULTIPLIER)%js).
  assert (s == - (1#10) * o) as Hs by apply returnStep_low_step.
  destruct (Qeq_dec o 0) as [E|E].
  - left. destruct (restore_zero o s) as [[R _]|[_ N]]; [lra|exact R|lra].
  - destruct (restore_neg o s) as [x [Hx [[R _]|[R N]]]]; [lra|now left|].
    right. rewrite R. lra.
Qed.

(** From half a width up to one width the reel is pushed toward the next
    image, at offset [IMAGE_WIDTH]: at least 0.1 further, and less than
    0.1 past it. *)
Lemma returnStep_high o :
  64 <= o < 128 -> o + (1#10) <= returnStep 2 o /\ returnStep 2 o < 128 + (1#10).
Proof.
  intro Ho. rewrite returnStep_restore.
  set (s := (_ * RETURN_MULTIPLIER)%js).
  assert (s == (1#10) * (128 - o)) as Hs.
  { unfold s, RETURN_MULTIPLIER, IMAGE_WIDTH. replace (inject_Z (2 - 1)) with 1 by reflexivity.
    js_norm. ring. }
  destruct (restore_pos o s) as [x [Hx [[R N]|[R N]]]]; [lra|lra|]. rewrite R. lra.
Qed.

(** At exactly one width the distance is 0, [Math.sign(0)] is 0, and the
    step does not move the reel. *)
Lemma returnStep_fixed o : o == 128 -> returnStep 2 o == o.
Proof.
  intro Ho. rewrite returnStep_restore.
  set (s := (_ * RETURN_MULTIPLIER)%js).
  assert (s == 0) as Hs.
  { unfold s, RETURN_MULTIPLIER, IMAGE_WIDTH. replace (inject_Z (2 - 1)) with 1 by reflexivity.
    js_norm. rewrite Ho. ring. }
  destruct (restore_zero o s) as [[R N]|[R N]]; [exact Hs|lra|exact R].
Qed.

(** ** The other parts of [update] *)

Lemma center_eq : (IMAGE_WIDTH * inject_Z IMAGE_COUNT / 2)%js = 192.
Proof. reflexivity. Qed.

Lemma centerIndex_low g : 0 <= offset g < 64 -> centerIndex g = 1%Z.
Proof.
  intro H. unfold centerIndex. rewrite center_eq. apply Math_floor_unique; js_norm;
    unfold IMAGE_WIDTH; change (inject_Z 1) with 1.
  - apply Qle_shift_div_l; lra.
  - apply Qlt_shift_div_r; lra.
Qed.

Lemma centerIndex_high g : 64 <= offset g < 192 -> centerIndex g = 2%Z.
Proof.
  intro H. unfold centerIndex. rewrite center_eq. apply Math_floor_unique; js_norm;
    unfold IMAGE_WIDTH; change (inject_Z 2) with 2.
  - apply Qle_shift_div_l; lra.
  - apply Qlt_shift_div_r; lra.
Qed.

(** The two branches of [wrapOffset]. *)
Lemma wrapOffset_cases len g :
  (IMAGE_WIDTH < offset g /\ (offset g > IMAGE_WIDTH)%js = true /\
   wrapOffset len g = set_offset (js_fmod (offset g) IMAGE_WIDTH)
                        (set_startIndex (Z.rem (startIndex g + 1) len) g)) \/
  (offset g <= IMAGE_WIDTH /\ (offset g > IMAGE_WIDTH)%js = false /\ wrapOffset len g = g).
Proof.
  unfold wrapOffset. destruct (js_ltP IMAGE_WIDTH (offset g)); [left|right]; repeat split;
    auto; lra.
Qed.

(** [wrapOffset] brings a non-negative offset into [[0, IMAGE_WIDTH]] and,
    with at least one image, keeps [startIndex] in range. *)
Lemma wrapOffset_range len g :
  0 <= offset g -> 0 <= offset (wrapOffset len g) <= IMAGE_WIDTH.
Proof.
  intro H. unfold wrapOffset. js_case; simpl.
  - pose proof (js_fmod_range (offset g) IMAGE_WIDTH H) as R. unfold IMAGE_WIDTH in *. lra.
  - lra.
Qed.

Lemma wrapOffset_startIndex len g :
  (0 < len)%Z -> (0 <= startIndex g < len)%Z ->
  (0 <= startIndex (wrapOffset len g) < len)%Z.
Proof.
  intros Hl Hs. unfold wrapOffset. js_case; simpl; [|exact Hs].
  rewrite Z.rem_mod_nonneg by lia. apply Z.mod_pos_bound. lia.
Qed.

(** [continues] is false exactly when the reel is at rest: no positive
    speed and offset 0. *)
Lemma continues_false g : continues g = false -> speed g <= 0 /\ offset g == 0.
Proof.
  unfold continues. intro H. apply orb_false_iff in H as [H1 H2].
  revert H1 H2. js_case; js_case; simpl; intros; try discriminate; split; lra.
Qed.

(** [motion] on every branch, in rational arithmetic. *)
Lemma motion_cases index g :
  let g' := motion index g in
  startIndex g' = startIndex g /\
  match state g with
  | ACCELERATION =>
      state g' = ACCELERATION /\ speed g' == speed g + 1 /\ offset g' == offset g + speed g
  | DECELERATION =>
      offset g' == offset g + speed g /\
      ((speed g * (95#100) < 1#100 /\ state g' = RETURN /\ speed g' == 0) \/
       (1#100 <= speed g * (95#100) /\ state g' = DECELERATION /\ speed g' == speed g * (95#100)))
  | RETURN =>
      state g' = RETURN /\ speed g' = speed g /\
      offset g' == returnStep index (offset g + speed g)
  end.
Proof.
  cbv zeta. unfold motion. gsimpl. destruct (state g) eqn:St; gsimpl; rewrite ?St.
  - split; [reflexivity|]. unfold ACCELERATION_STEP. js_norm. repeat split; reflexivity.
  - split; [now destruct (_ < _)%js|].
    unfold DECELERATION_MULTIPLIER. js_case; gsimpl; rewrite ?St; js_norm; (split; [reflexivity|]).
    + left. split; [|split; reflexivity]. js_norm_in q. exact q.
    + right. split; [|split; reflexivity]. js_norm_in n. lra.
  - repeat split; try reflexivity. now rewrite js_add_eq.
Qed.

(** [accelerationCheck] and [wrapOffset] change neither the speed nor,
    apart from the end of the acceleration, the phase. *)
Lemma accelerationCheck_cases now g :
  speed (accelerationCheck now g) = speed g /\ offset (accelerationCheck now g) = offset g /\
  startIndex (accelerationCheck now g) = startIndex g /\
  (state (accelerationCheck now g) = state g \/
   state g = ACCELERATION /\ state (accelerationCheck now g) = DECELERATION).
Proof.
  unfold accelerationCheck. destruct (state g) eqn:St; destruct (_ > _)%js;
    cbn [andb STATE_beq]; gsimpl; rewrite ?St; intuition auto.
Qed.

Lemma wrapOffset_same len g :
  speed (wrapOffset len g) = speed g /\ state (wrapOffset len g) = state g.
Proof. unfold wrapOffset. now destruct (_ > _)%js. Qed.

(** A frame of RETURN at rest speed, by the region of the offset: the
    centre slot the frame computes and where the restoring step takes the
    reel. *)
Lemma return_cases g :
  0 <= offset g <= IMAGE_WIDTH -> speed g == 0 ->
  let r := returnStep (centerIndex g) (offset g + speed g) in
  (offset g < 64 /\ centerIndex g = 1%Z /\ (r == 0 \/ (1#10 < r /\ r <= offset g - (1#10)))) \/
  (64 <= offset g < 128 /\ centerIndex g = 2%Z /\ offset g + (1#10) <= r /\ r < 128 + (1#10)) \/
  (offset g == 128 /\ centerIndex g = 2%Z /\ r == 128).
Proof.
  intros Ho Hs. cbv zeta. unfold IMAGE_WIDTH in Ho.
  assert (offset g + speed g == offset g) as E by lra. rewrite E.
  destruct (Qlt_le_dec (offset g) 64) as [L|L].
  - left. rewrite centerIndex_low by lra. repeat split; try lra. now apply returnStep_low.
  - right. rewrite centerIndex_high by lra. destruct (Qlt_le_dec (offset g) 128) as [L'|L'].
    + left. repeat split; try lra; apply returnStep_high; lra.
    + right. assert (offset g == 128) as F by lra. repeat split; try lra.
      rewrite returnStep_fixed; lra.
Qed.

(** What the first two parts of a frame leave: the same speed, the same or
    the next phase, a wrapped offset in [[0, IMAGE_WIDTH]]. *)
Lemma tick_prefix len now g :
  0 <= offset g ->
  let g2 := wrapOffset len (accelerationCheck now g) in
  speed g2 = speed g /\ 0 <= offset g2 <= IMAGE_WIDTH /\
  (state g2 = state g \/ state g = ACCELERATION /\ state g2 = DECELERATION).
Proof.
  intros Ho g2. destruct (accelerationCheck_cases now g) as [As [Ao [_ Ast]]].
  destruct (wrapOffset_same len (accelerationCheck now g)) as [Ws Wst].
  unfold g2. rewrite Ws, Wst, As. split; [reflexivity|]. split; [|exact Ast].
  apply wrapOffset_range. now rewrite Ao.
Qed.

(** The invariant of the reel between frames. *)
Definition reel_ok (len : Z) (g : Globals) : Prop :=
  0 <= speed g /\ 0 <= offset g /\ (0 <= startIndex g < len)%Z /\
  (state g = ACCELERATION -> BASE_SPEED <= speed g) /\
  (state g = DECELERATION -> 1#100 <= speed g) /\
  (state g = RETURN -> speed g == 0).

(** ** Properties of a frame *)

Lemma settle_center len now g :
  0 <= speed g -> 0 <= offset g ->
  continues (fst (tick len now g)) = false ->
  snd (tick len now g) = 1%Z /\ state (fst (tick len now g)) = RETURN /\
  speed (fst (tick len now g)) == 0 /\ offset (fst (tick len now g)) == 0 /\
  offset (wrapOffset len (accelerationCheck now g)) <= 1#5.
Proof.
  intros Hs Ho Hc. unfold tick in *. cbn [fst snd] in *.
  destruct (tick_prefix len now g Ho) as [S2 [O2 _]].
  set (g2 := wrapOffset len (accelerationCheck now g)) in *.
  apply continues_false in Hc as [Cs Co].
  destruct (motion_cases (centerIndex g2) g2) as [_ M].
  destruct (state g2) eqn:St.
  - destruct M as [_ [M1 _]]. rewrite S2 in M1. lra.
  - rewrite S2 in M. destruct M as [M0 [[_ [M1 M2]] | [L [_ M2]]]]; [|lra].
    assert (offset g2 == 0) by lra. rewrite (centerIndex_low g2) in * by lra.
    repeat split; auto; lra.
  - destruct M as [M1 [M2 M3]]. rewrite M2 in Cs.
    assert (speed g2 == 0) as Z2 by (rewrite S2 in *; lra). rewrite M2.
    destruct (return_cases g2 O2 Z2) as [[L [Ci _]] | [[_ [_ [R _]]] | [_ [_ R]]]];
      [ | lra | lra].
    repeat split; auto. apply returnStep_settles; [lra|].
    assert (offset g2 + speed g2 == offset g2) as E by lra.
    rewrite <- Ci, <- E, <- M3. exact Co.
Qed.

(** C3: a frame that ends the spin (whose globals no longer ask for a
    frame) comes from a non-negative speed and offset only through RETURN:
    it leaves speed 0 and offset 0, and the centre slot it computed is 1,
    the slot under the divider. *)
Theorem settle_at_center len now g :
  0 <= speed g -> 0 <= offset g ->
  continues (fst (tick len now g)) = false ->
  snd (tick len now g) = 1%Z /\ state (fst (tick len now g)) = RETURN /\
  speed (fst (tick len now g)) == 0 /\ offset (fst (tick len now g)) == 0.
Proof. intros Hs Ho Hc. now destruct (settle_center len now g Hs Ho Hc) as (?&?&?&?&_). Qed.

Lemma tick_ok len now g :
  (0 < len)%Z -> reel_ok len g -> reel_ok len (fst (tick len now g)).
Proof.
  intros Hl [Hs [Ho [Hi [Ha [Hd Hr]]]]]. unfold tick. cbn [fst].
  destruct (tick_prefix len now g Ho) as [S2 [O2 Ph]].
  destruct (accelerationCheck_cases now g) as [_ [_ [Ai _]]].
  pose proof (wrapOffset_startIndex len (accelerationCheck now g) Hl) as W.
  rewrite Ai in W. specialize (W Hi).
  set (g2 := wrapOffset len (accelerationCheck now g)) in *.
  destruct (motion_cases (centerIndex g2) g2) as [Mi M]. unfold reel_ok. rewrite Mi.
  unfold BASE_SPEED, IMAGE_WIDTH in *.
  destruct (state g2) eqn:St; rewrite S2 in M.
  - destruct Ph as [P|[_ P]]; [|discriminate]. rewrite <- P in Ha.
    destruct M as [M1 [M2 M3]]. rewrite M1.
    specialize (Ha eq_refl). repeat split; intros; try discriminate; num.
  - assert (1#100 <= speed g) as Hs'
      by (destruct Ph as [P|[P _]]; rewrite <- P in *; [apply Hd | specialize (Ha eq_refl); lra];
          reflexivity).
    destruct M as [M0 [[L [M1 M2]]|[L [M1 M2]]]]; rewrite M1;
      repeat split; intros; try discriminate; num.
  - destruct Ph as [P|[_ P]]; [|discriminate]. rewrite <- P in Hr.
    specialize (Hr eq_refl). destruct M as [M1 [M2 M3]]. rewrite M1, M2.
    assert (speed g2 == 0) as Z2 by (rewrite S2; exact Hr).
    destruct (return_cases g2 O2 Z2) as [[_ [_ [R|[R _]]]] | [[_ [_ [R _]]] | [_ [_ R]]]];
      rewrite S2 in R; repeat split; intros; try discriminate; num.
Qed.

(** C4: the invariant of the reel between frames (speed and offset not
    negative, [startIndex] a valid index, at least [BASE_SPEED] while
    accelerating, at least 0.01 while decelerating, speed 0 while
    returning) holds after every frame, when there is at least one image. *)
Theorem tick_preserves_ok len now g :
  (0 < len)%Z -> reel_ok len g -> reel_ok len (fst (tick len now g)).
Proof. intros; apply tick_ok; assumption. Qed.

(** C5: a frame leaves the phase where it is or moves it to the next one
    in the order ACCELERATION, DECELERATION, RETURN; no phase is skipped
    and none is re-entered. *)
Theorem tick_phase_order len now g :
  reel_ok len g ->
  state (fst (tick len now g)) = state g \/
  STATE_rank (state (fst (tick len now g))) = S (STATE_rank (state g)).
Proof.
  intros [Hs [Ho [_ [Ha _]]]]. unfold tick. cbn [fst].
  destruct (tick_prefix len now g Ho) as [S2 _].
  destruct (accelerationCheck_cases now g) as [_ [_ [_ Ph]]].
  destruct (wrapOffset_same len (accelerationCheck now g)) as [_ Wst].
  set (g2 := wrapOffset len (accelerationCheck now g)) in *. rewrite <- Wst in Ph.
  destruct (motion_cases (centerIndex g2) g2) as [_ M].
  destruct (state g2) eqn:St; rewrite S2 in M.
  - destruct Ph as [P|[_ P]]; [|discriminate]. left. rewrite <- P. apply M.
  - destruct Ph as [P|[P _]].
    + rewrite <- P. destruct M as [_ [[_ [M1 _]]|[_ [M1 _]]]]; rewrite M1; auto.
    + rewrite P. destruct M as [_ [[L _]|[_ [M1 _]]]]; [|rewrite M1; auto].
      unfold BASE_SPEED in Ha. specialize (Ha P). lra.
  - destruct Ph as [P|[_ P]]; [|discriminate]. left. rewrite <- P. apply M.
Qed.

(** A frame outside RETURN integrates the speed into the offset. *)
Lemma tick_integrates len now g :
  state g <> RETURN ->
  let g2 := wrapOffset len (accelerationCheck now g) in
  offset (fst (tick len now g)) == offset g2 + speed g /\
  startIndex (fst (tick len now g)) = startIndex g2.
Proof.
  intros Hr g2. unfold tick. cbn [fst].
  destruct (accelerationCheck_cases now g) as [As [_ [_ Ph]]].
  destruct (wrapOffset_same len (accelerationCheck now g)) as [Ws Wst].
  fold g2 in Ws, Wst. rewrite As in Ws. rewrite <- Wst in Ph.
  destruct (motion_cases (centerIndex g2) g2) as [Mi M]. rewrite Ws in M.
  split; [|exact Mi].
  destruct (state g2); [apply M | apply M |].
  destruct Ph as [P|[_ P]]; [congruence | discriminate].
Qed.

(** C9: conservation of distance across the wrap-around.  While the reel
    moves by speed (outside RETURN) and the offset is below two widths, a
    frame turns one width of offset into one step of [startIndex] and adds
    the speed to the rest: [offset' + IMAGE_WIDTH * advanced = offset + speed],
    with [startIndex] advanced by one, modulo the number of images, exactly
    when the offset had passed one width. *)
Theorem wrap_conservation len now g :
  state g <> RETURN -> 0 <= offset g < 2 * IMAGE_WIDTH ->
  offset (fst (tick len now g)) + (if (offset g > IMAGE_WIDTH)%js then IMAGE_WIDTH else 0)
    == offset g + speed g /\
  startIndex (fst (tick len now g))
    = (if (offset g > IMAGE_WIDTH)%js then Z.rem (startIndex g + 1) len else startIndex g).
Proof.
  intros Hr Ho. destruct (tick_integrates len now g Hr) as [O I].
  destruct (accelerationCheck_cases now g) as [_ [Ao [Ai _]]].
  rewrite O, I. clear O I.
  destruct (wrapOffset_cases len (accelerationCheck now g)) as [[L [B ->]]|[L [B ->]]];
    gsimpl; rewrite ?Ao, ?Ai in *; rewrite B.
  - rewrite js_fmod_once by (unfold IMAGE_WIDTH in *; lra). split; [lra | reflexivity].
  - split; [lra | reflexivity].
Qed.

(** C10: from two widths on the conservation fails: [startIndex] still
    advances by one only, while [%] removes every whole width, so the frame
    loses at least one width of distance. *)
Theorem wrap_loses_widths len now g :
  state g <> RETURN -> 2 * IMAGE_WIDTH <= offset g ->
  offset (fst (tick len now g)) + IMAGE_WIDTH <= offset g + speed g - IMAGE_WIDTH /\
  startIndex (fst (tick len now g)) = Z.rem (startIndex g + 1) len.
Proof.
  intros Hr Ho. destruct (tick_integrates len now g Hr) as [O I].
  destruct (accelerationCheck_cases now g) as [_ [Ao [Ai _]]].
  rewrite O, I. clear O I.
  destruct (wrapOffset_cases len (accelerationCheck now g)) as [[L [_ ->]]|[L _]];
    gsimpl; rewrite ?Ao, ?Ai in *; unfold IMAGE_WIDTH in *; [|lra].
  split; [|reflexivity]. rewrite js_fmod_nonneg by lra.
  assert (2 <= inject_Z (Qfloor (offset g / 128))) as K.
  { change 2 with (inject_Z 2). rewrite <- Zle_Qle. apply Math_floor_ge.
    change (inject_Z 2) with 2. apply Qle_shift_div_l; lra. }
  lra.
Qed.

Lemma tick_stuck len now g :
  state g = RETURN -> speed g == 0 -> offset g == IMAGE_WIDTH ->
  state (fst (tick len now g)) = RETURN /\ speed (fst (tick len now g)) == 0 /\
  offset (fst (tick len now g)) == IMAGE_WIDTH /\
  startIndex (fst (tick len now g)) = startIndex g /\
  continues (fst (tick len now g)) = true.
Proof.
  intros Hst Hs Ho. unfold tick. cbn [fst].
  destruct (accelerationCheck_cases now g) as [As [Ao [Ai Ph]]].
  set (g1 := accelerationCheck now g) in *.
  assert (state g1 = RETURN) as St1 by (destruct Ph as [P|[P _]]; congruence).
  unfold IMAGE_WIDTH in *.
  destruct (wrapOffset_cases len g1) as [[L _]|[_ [_ ->]]]; [rewrite Ao in L; unfold IMAGE_WIDTH in L; lra|].
  destruct (motion_cases (centerIndex g1) g1) as [Mi M]. rewrite St1 in M.
  destruct M as [M1 [M2 M3]].
  assert (speed g1 == 0) as S1 by (rewrite As; exact Hs).
  assert (0 <= offset g1 <= 128) as O1 by (rewrite Ao; lra).
  destruct (return_cases g1 O1 S1) as [[L _]|[[L _]|[_ [_ R]]]]; [rewrite Ao in L; lra
                                                                 | rewrite Ao in L; lra |].
  rewrite M1, M2, Mi, Ai, S1. rewrite R in M3. repeat split; auto.
  unfold continues. rewrite M2, S1, M3. reflexivity.
Qed.

(** C7: the livelock.  A reel at rest speed in RETURN whose offset is
    exactly one width is not wrapped ([offset > IMAGE_WIDTH] is false), its
    distance to the target slot is 0, [Math.sign(0)] is 0, so the frame
    leaves it where it is, and [continues] still asks for another frame. *)
Theorem tick_stuck_at_width len now g :
  state g = RETURN -> speed g == 0 -> offset g == IMAGE_WIDTH ->
  state (fst (tick len now g)) = RETURN /\ speed (fst (tick len now g)) == 0 /\
  offset (fst (tick len now g)) == IMAGE_WIDTH /\
  startIndex (fst (tick len now g)) = startIndex g /\
  continues (fst (tick len now g)) = true.
Proof. intros; apply tick_stuck; assumption. Qed.

(** [update] is [tick] on the globals when there is an image and
    [startIndex] is a valid index: [draw] does not throw, and the frame
    either asks for one more frame or logs the winner of the centre index
    it computed. *)
Lemma update_tick {Img} (images : list Img) now (w : World Img) :
  (0 < Z.of_nat (length images))%Z ->
  (0 <= startIndex (globals w) < Z.of_nat (length images))%Z ->
  let len := Z.of_nat (length images) in
  let g' := fst (tick len now (globals w)) in
  snd (update images now w) = Ok tt /\ globals (fst (update images now w)) = g' /\
  (continues g' = true ->
   frames (fst (update images now w)) = S (frames w) /\ console (fst (update images now w)) = console w) /\
  (continues g' = false ->
   frames (fst (update images now w)) = frames w /\
   console (fst (update images now w))
   = console w ++ winner_log (winner (snd (tick len now (globals w))) (startIndex g') len)).
Proof.
  intros Hl Hi. cbv zeta. unfold update, tick. cbv zeta. cbn [fst snd].
  set (len := Z.of_nat (length images)) in *.
  destruct (accelerationCheck_cases now (globals w)) as [_ [_ [Ai _]]].
  pose proof (wrapOffset_startIndex len (accelerationCheck now (globals w)) Hl) as W.
  rewrite Ai in W. specialize (W Hi).
  destruct (draw_paints images (wrapOffset len (accelerationCheck now (globals w))) (ctx w) Hl)
    as [ps [_ ->]]; [lia|].
  destruct (continues _); cbn; repeat split; intros; congruence.
Qed.

(** What a frame paints: the white background, the five slots at the
    wrapped offset (the offset before the frame's motion), the stroke of
    the whole path with the new divider, and, when the frame ends the spin,
    the highlight at the centre slot and the offset after the motion. *)
Lemma update_paints {Img} (images : list Img) now (w : World Img) :
  (0 < Z.of_nat (length images))%Z ->
  (0 <= startIndex (globals w) < Z.of_nat (length images))%Z ->
  let g2 := wrapOffset (Z.of_nat (length images)) (accelerationCheck now (globals w)) in
  let g3 := motion (centerIndex g2) g2 in
  let c := ctx w in
  let p' := path c ++ divider_subpaths (inject_Z (Math_floor (cv_width c / 2)%js) + 0.5)%js
                                       (cv_height c) in
  exists ps, Forall2 (slot_paint images g2) [-1; 0; 1; 2; 3]%Z ps /\
    painted (ctx (fst (update images now w))) =
      painted c ++ PaintRect "#ffffff" 0 0 (cv_width c) (cv_height c) ::
        ps ++ PaintStroke "rgba(0, 0, 0, 0.5)" p' ::
        (if continues g3 then []
         else [PaintRect "rgba(255, 0, 255, 0.2)"
                 (inject_Z (centerIndex g2) * IMAGE_WIDTH - offset g3)%js 0
                 IMAGE_WIDTH IMAGE_HEIGHT]).
Proof.
  intros Hl Hi. cbv zeta. unfold update. cbv zeta.
  set (len := Z.of_nat (length images)) in *.
  destruct (accelerationCheck_cases now (globals w)) as [_ [_ [Ai _]]].
  pose proof (wrapOffset_startIndex len (accelerationCheck now (globals w)) Hl) as W.
  rewrite Ai in W. specialize (W Hi).
  destruct (draw_paints images (wrapOffset len (accelerationCheck now (globals w))) (ctx w) Hl)
    as [ps [Hps ->]]; [lia|].
  exists ps. split; [exact Hps|].
  set (g2 := wrapOffset len (accelerationCheck now (globals w))).
  destruct (continues (motion (centerIndex g2) g2));
    cbn [fst ctx painted highlight cbind set_fillStyle fillRect paint snd fillStyle];
    [reflexivity|].
  rewrite <- !app_assoc. cbn [app]. rewrite <- !app_assoc. reflexivity.
Qed.

(** ** Witnesses *)

(** A reel 0.05 past the slot, returning: the next frame settles it. *)
Definition settling_reel : Globals := mkGlobals 0 RETURN 2 0 1000 (1#20).
(** A reel accelerating at speed 6, 200 pixels in. *)
Definition accelerating_reel : Globals := mkGlobals 6 ACCELERATION 4 0 1000 200.
(** A reel that a fast spin has carried 300 pixels in. *)
Definition fast_reel : Globals := mkGlobals 150 ACCELERATION 4 0 1000 300.
(** A reel at rest speed in RETURN, exactly one width in. *)
Definition stuck_reel : Globals := mkGlobals 0 RETURN 3 0 1000 128.

Lemma settle_at_center_witness :
  0 <= speed settling_reel /\ 0 <= offset settling_reel /\
  continues (fst (tick 5 2000 settling_reel)) = false /\
  (snd (tick 5 2000 settling_reel) = 1%Z /\ state (fst (tick 5 2000 settling_reel)) = RETURN /\
   speed (fst (tick 5 2000 settling_reel)) == 0 /\ offset (fst (tick 5 2000 settling_reel)) == 0).
Proof.
  split; [close_num|]. split; [close_num|]. split; [close_num|].
  apply settle_at_center; close_num.
Defined.

Lemma tick_preserves_ok_witness :
  (0 < 5)%Z /\ reel_ok 5 accelerating_reel /\ reel_ok 5 (fst (tick 5 500 accelerating_reel)).
Proof.
  split; [close_num|]. split; [close_num|].
  apply tick_preserves_ok; close_num.
Defined.

Lemma tick_phase_order_witness :
  reel_ok 5 accelerating_reel /\
  (state (fst (tick 5 1500 accelerating_reel)) = state accelerating_reel \/
   STATE_rank (state (fst (tick 5 1500 accelerating_reel)))
   = S (STATE_rank (state accelerating_reel))).
Proof.
  split; [close_num|]. apply tick_phase_order with (len := 5%Z). close_num.
Defined.

Lemma wrap_conservation_witness :
  state accelerating_reel <> RETURN /\ 0 <= offset accelerating_reel < 2 * IMAGE_WIDTH /\
  (offset (fst (tick 5 500 accelerating_reel))
     + (if (offset accelerating_reel > IMAGE_WIDTH)%js then IMAGE_WIDTH else 0)
   == offset accelerating_reel + speed accelerating_reel /\
   startIndex (fst (tick 5 500 accelerating_reel))
   = (if (offset accelerating_reel > IMAGE_WIDTH)%js
      then Z.rem (startIndex accelerating_reel + 1) 5 else startIndex accelerating_reel)).
Proof.
  split; [close_num|]. split; [close_num|]. apply wrap_conservation; close_num.
Defined.

Lemma wrap_loses_widths_witness :
  state fast_reel <> RETURN /\ 2 * IMAGE_WIDTH <= offset fast_reel /\
  (offset (fst (tick 5 500 fast_reel)) + IMAGE_WIDTH
     <= offset fast_reel + speed fast_reel - IMAGE_WIDTH /\
   startIndex (fst (tick 5 500 fast_reel)) = Z.rem (startIndex fast_reel + 1) 5).
Proof.
  split; [close_num|]. split; [close_num|]. apply wrap_loses_widths; close_num.
Defined.

Lemma tick_stuck_at_width_witness :
  state stuck_reel = RETURN /\ speed stuck_reel == 0 /\ offset stuck_reel == IMAGE_WIDTH /\
  (state (fst (tick 5 9000 stuck_reel)) = RETURN /\ speed (fst (tick 5 9000 stuck_reel)) == 0 /\
   offset (fst (tick 5 9000 stuck_reel)) == IMAGE_WIDTH /\
   startIndex (fst (tick 5 9000 stuck_reel)) = startIndex stuck_reel /\
   continues (fst (tick 5 9000 stuck_reel)) = true).
Proof.
  split; [close_num|]. split; [close_num|]. split; [close_num|].
  apply tick_stuck_at_width; close_num.
Defined.
