(* ===== verification/Convergence.v ===== *)
(** Convergence of a spin: frames of [update] run one after the other
    ([run], the frame [i] at time [now i]), and the phases end in order.
    The acceleration ends at the first frame whose time is past
    [accelerationDuration]; the deceleration within a number of frames
    bounded from the speed by Bernoulli's inequality; the return settles the
    reel or brings it to the livelocked offset [IMAGE_WIDTH] within
    [10 * distance + 2] frames, 642 at most.  The composition bounds a whole spin.  The
    frame times are any function: nothing assumes them increasing. *)

From S2P Require Import Prelude Config Canvas Render Reel.

Open Scope Q_scope.

(** ** Runs of frames *)

(** [n] frames from the globals [g], the first one at time [now i]. *)
Fixpoint run (len : Z) (now : nat -> Q) (i n : nat) (g : Globals) : Globals :=
  match n with
  | O => g
  | S n' => run len now (S i) n' (fst (tick len (now i) g))
  end.

(** The livelocked reel of [tick_stuck_at_width]. *)
Definition stuck (g : Globals) : Prop :=
  state g = RETURN /\ speed g == 0 /\ offset g == IMAGE_WIDTH.

(** ** Lemmas *)

Lemma run_plus len now n m : forall i g,
  run len now i (n + m) g = run len now (i + n) m (run len now i n g).
Proof.
  induction n as [|n IH]; intros i g; simpl.
  - now rewrite Nat.add_0_r.
  - rewrite IH. now rewrite Nat.add_succ_r.
Qed.

Lemma run_ok len now n : forall i g,
  (0 < len)%Z -> reel_ok len g -> reel_ok len (run len now i n g).
Proof.
  induction n as [|n IH]; intros i g Hl Hg; simpl; auto.
  apply IH; auto. now apply tick_ok.
Qed.

Lemma continues_rest g : speed g == 0 -> offset g == 0 -> continues g = false.
Proof. intros Hs Ho. unfold continues. rewrite Hs, Ho. reflexivity. Qed.

(** The motion changes neither the time the spin started nor its duration. *)
Lemma motion_times index g :
  startTime (motion index g) = startTime g /\
  accelerationDuration (motion index g) = accelerationDuration g.
Proof.
  unfold motion. gsimpl.
  destruct (state g); gsimpl; try destruct (_ < _)%js; gsimpl; auto.
Qed.

(** A frame changes neither the time the spin started nor its duration. *)
Lemma tick_times len now g :
  startTime (fst (tick len now g)) = startTime g /\
  accelerationDuration (fst (tick len now g)) = accelerationDuration g.
Proof.
  unfold tick. cbn [fst]. rewrite (proj1 (motion_times _ _)), (proj2 (motion_times _ _)).
  unfold wrapOffset, accelerationCheck.
  destruct (_ && _); gsimpl; destruct (_ > _)%js; gsimpl; auto.
Qed.

(** A RETURN frame from an offset of at most one width: no wrap, and the
    three regions of [return_cases]. *)
Lemma return_tick len now g :
  reel_ok len g -> state g = RETURN -> offset g <= IMAGE_WIDTH ->
  let g' := fst (tick len now g) in
  state g' = RETURN /\ speed g' == 0 /\
  (offset g < 64 /\ (offset g' == 0 \/ (1#10 < offset g' /\ offset g' <= offset g - (1#10))) \/
   64 <= offset g < 128 /\ offset g + (1#10) <= offset g' /\ offset g' < 128 + (1#10) \/
   offset g == 128 /\ offset g' == 128).
Proof.
  intros [Hs [Ho [_ [_ [_ Hr]]]]] St Hw g'. specialize (Hr St).
  unfold g', tick. cbn [fst].
  destruct (accelerationCheck_cases now g) as [As [Ao [_ Ph]]].
  assert (state (accelerationCheck now g) = RETURN) as St1
    by (destruct Ph as [P|[P _]]; congruence).
  destruct (wrapOffset_cases len (accelerationCheck now g)) as [[L _]|[_ [_ ->]]];
    [rewrite Ao in L; lra|].
  set (g1 := accelerationCheck now g) in *.
  destruct (motion_cases (centerIndex g1) g1) as [_ M]. rewrite St1 in M.
  destruct M as [M1 [M2 M3]]. rewrite M1, M2, As.
  assert (speed g1 == 0) as S1 by (rewrite As; exact Hr).
  assert (0 <= offset g1 <= IMAGE_WIDTH) as O1 by (rewrite Ao; split; assumption).
  split; [reflexivity|]. split; [exact Hr|].
  rewrite M3.
  destruct (return_cases g1 O1 S1) as [[L [_ R]]|[[L [_ R]]|[L [_ R]]]];
    rewrite Ao in *; [left|right; left|right; right]; auto.
Qed.

(** A RETURN frame from less than 0.1 past one width wraps the offset to
    less than 0.1 and settles the reel. *)
Lemma return_tick_wrap len now g :
  reel_ok len g -> state g = RETURN -> IMAGE_WIDTH < offset g < IMAGE_WIDTH + (1#10) ->
  continues (fst (tick len now g)) = false.
Proof.
  intros [Hs [Ho [_ [_ [_ Hr]]]]] St Hw. specialize (Hr St).
  unfold tick. cbn [fst].
  destruct (accelerationCheck_cases now g) as [As [Ao [_ Ph]]].
  assert (state (accelerationCheck now g) = RETURN) as St1
    by (destruct Ph as [P|[P _]]; congruence).
  destruct (wrapOffset_cases len (accelerationCheck now g)) as [[_ [_ ->]]|[L _]];
    [|rewrite Ao in L; lra].
  set (g2 := set_offset _ _).
  assert (offset g2 == offset g - IMAGE_WIDTH) as O2.
  { unfold g2. gsimpl. rewrite Ao. apply js_fmod_once; unfold IMAGE_WIDTH in *; lra. }
  assert (speed g2 == 0) as S2 by (unfold g2; gsimpl; rewrite As; exact Hr).
  assert (state g2 = RETURN) as St2 by (unfold g2; gsimpl; exact St1).
  destruct (motion_cases (centerIndex g2) g2) as [_ M]. rewrite St2 in M.
  destruct M as [_ [M2 M3]].
  assert (0 <= offset g2 <= IMAGE_WIDTH) as B by (unfold IMAGE_WIDTH in *; lra).
  apply continues_rest; [rewrite M2; exact S2|]. rewrite M3.
  destruct (return_cases g2 B S2) as [[_ [_ [R|[R1 R2]]]]|[[L _]|[L _]]];
    unfold IMAGE_WIDTH in *; lra.
Qed.

(** A DECELERATION frame: the speed shrinks by [DECELERATION_MULTIPLIER],
    or the reel enters RETURN at rest speed less than 0.1 past one width. *)
Lemma decel_tick len now g :
  reel_ok len g -> state g = DECELERATION ->
  let g' := fst (tick len now g) in
  (state g' = RETURN /\ offset g' < IMAGE_WIDTH + (1#10)) \/
  (state g' = DECELERATION /\ speed g' == speed g * (95#100)).
Proof.
  intros [Hs [Ho _]] St g'. unfold g', tick. cbn [fst].
  destruct (tick_prefix len now g Ho) as [S2 [O2 Ph]].
  set (g2 := wrapOffset len (accelerationCheck now g)) in *.
  assert (state g2 = DECELERATION) as St2 by (destruct Ph as [P|[P _]]; congruence).
  destruct (motion_cases (centerIndex g2) g2) as [_ M]. rewrite St2, S2 in M.
  destruct M as [M0 [[L [M1 _]]|[_ [M1 M2]]]]; [left|right]; split; auto.
  rewrite M0. unfold IMAGE_WIDTH in *. lra.
Qed.

(** An ACCELERATION frame: before the end of the acceleration the speed
    grows by [ACCELERATION_STEP]; after it the frame decelerates. *)
Lemma accel_tick len now g :
  reel_ok len g -> state g = ACCELERATION ->
  let g' := fst (tick len now g) in
  (now - startTime g <= accelerationDuration g /\ state g' = ACCELERATION /\
   speed g' == speed g + 1) \/
  (accelerationDuration g < now - startTime g /\ state g' = DECELERATION /\
   speed g' == speed g * (95#100)).
Proof.
  intros [Hs [Ho [_ [Ha _]]]] St g'. specialize (Ha St). unfold BASE_SPEED in Ha.
  unfold g', tick. cbn [fst].
  destruct (tick_prefix len now g Ho) as [S2 _].
  destruct (wrapOffset_same len (accelerationCheck now g)) as [_ W].
  set (g2 := wrapOffset len (accelerationCheck now g)) in *.
  destruct (motion_cases (centerIndex g2) g2) as [_ M].
  unfold accelerationCheck in W. rewrite St in W. cbn [STATE_beq] in W.
  destruct (js_ltP (accelerationDuration g) (now - startTime g)%js) as [T|T];
    rewrite ?andb_true_r, ?andb_false_r in W; gsimpl; js_norm_in T.
  - right. rewrite W, S2 in M. destruct M as [_ [[L _]|[_ [M1 M2]]]]; [lra|]. auto.
  - left. rewrite W, St, S2 in M. destruct M as [M1 [M2 _]]. repeat split; auto; lra.
Qed.

(** ** The phases end *)

(** Below half a width, RETURN settles within [10 * offset + 1] frames. *)
Lemma return_low len now m : forall i g,
  (0 < len)%Z -> reel_ok len g -> state g = RETURN -> offset g < 64 ->
  10 * offset g <= inject_Z (Z.of_nat m) ->
  exists n, (n <= S m)%nat /\ continues (run len now i n g) = false.
Proof.
  induction m as [|m IH]; intros i g Hl Hg St Lo Hm;
    (destruct (return_tick len (now i) g Hg St) as [St' [S' [[_ [R|[R1 R2]]]|[[L _]|[L _]]]]];
     [unfold IMAGE_WIDTH; lra | | | lra | lra]);
    try (exists 1%nat; split; [lia | apply continues_rest; assumption]).
  - change (inject_Z (Z.of_nat 0)) with 0 in Hm. lra.
  - rewrite inject_Z_of_nat_S in Hm.
    destruct (IH (S i) (fst (tick len (now i) g))) as [n [Hn Hc]];
      [assumption | now apply tick_ok | assumption | lra | lra |].
    exists (S n). split; [lia | exact Hc].
Qed.

(** From half a width to one width, RETURN reaches the livelocked offset
    or settles, within [10 * (IMAGE_WIDTH - offset) + 2] frames. *)
Lemma return_high len now m : forall i g,
  (0 < len)%Z -> reel_ok len g -> state g = RETURN -> 64 <= offset g <= IMAGE_WIDTH ->
  10 * (IMAGE_WIDTH - offset g) <= inject_Z (Z.of_nat m) ->
  exists n, (n <= m + 2)%nat /\
    (continues (run len now i n g) = false \/ stuck (run len now i n g)).
Proof.
  unfold IMAGE_WIDTH. induction m as [|m IH]; intros i g Hl Hg St Ho Hm;
    (destruct (Qeq_dec (offset g) 128) as [E|E];
     [exists 0%nat; split; [lia | right; split; [exact St | split; [apply Hg, St | exact E]]] |]);
    (destruct (return_tick len (now i) g Hg St) as [St' [S' [[L _]|[[_ [R1 R2]]|[L _]]]]];
     [unfold IMAGE_WIDTH; lra | lra | | lra]).
  - change (inject_Z (Z.of_nat 0)) with 0 in Hm. lra.
  - set (g' := fst (tick len (now i) g)) in *.
    assert (reel_ok len g') as Hg' by now apply tick_ok.
    destruct (Qlt_le_dec 128 (offset g')) as [Over|Under].
    + exists 2%nat. split; [lia|]. left.
      apply (return_tick_wrap len (now (S i)) g' Hg' St'). unfold IMAGE_WIDTH. lra.
    + rewrite inject_Z_of_nat_S in Hm.
      destruct (IH (S i) g') as [n [Hn Hc]]; [assumption | assumption | assumption | lra | lra |].
      exists (S n). split; [lia | exact Hc].
Qed.

(** The return phase, entered less than 0.1 past one width, settles or
    livelocks within 642 frames. *)
Lemma return_phase len now i g :
  (0 < len)%Z -> reel_ok len g -> state g = RETURN -> offset g < IMAGE_WIDTH + (1#10) ->
  exists n, (n <= 642)%nat /\
    (continues (run len now i n g) = false \/ stuck (run len now i n g)).
Proof.
  intros Hl Hg St Ho. pose proof Hg as [_ [H0 _]].
  assert (inject_Z (Z.of_nat 640) == 640) as E by reflexivity.
  destruct (Qlt_le_dec (offset g) 64) as [L|L].
  - destruct (return_low len now 640 i g Hl Hg St L) as [n [Hn Hc]]; [rewrite E; lra |].
    exists n. split; [lia | now left].
  - destruct (Qlt_le_dec IMAGE_WIDTH (offset g)) as [W|W].
    + exists 1%nat. split; [lia|]. left. now apply return_tick_wrap.
    + destruct (return_high len now 640 i g Hl Hg St (conj L W)) as [n [Hn Hc]];
        [rewrite E; unfold IMAGE_WIDTH in *; lra |].
      exists n. split; [lia | exact Hc].
Qed.

(** DECELERATION multiplies the speed by 0.95 each frame and ends below
    0.01: from a speed at most [0.01 * (20/19)^m] it reaches RETURN within
    [m + 1] frames, less than 0.1 past one width. *)
Lemma decel_phase len now m : forall i g,
  (0 < len)%Z -> reel_ok len g -> state g = DECELERATION ->
  speed g <= (1#100) * qpow (1 + (1#19)) m ->
  exists n, (n <= S m)%nat /\ state (run len now i n g) = RETURN /\
    offset (run len now i n g) < IMAGE_WIDTH + (1#10).
Proof.
  induction m as [|m IH]; intros i g Hl Hg St Hs;
    (destruct (decel_tick len (now i) g Hg St) as [[St' Ho']|[St' Hs']];
     [exists 1%nat; split; [lia | split; assumption] |]);
    pose proof (tick_ok len (now i) g Hl Hg) as Hg';
    pose proof (proj1 (proj2 (proj2 (proj2 (proj2 Hg')))) St') as Lo.
  - simpl qpow in Hs. lra.
  - simpl qpow in Hs.
    destruct (IH (S i) (fst (tick len (now i) g))) as [n [Hn Hc]]; [assumption.. | lra |].
    exists (S n). split; [lia | exact Hc].
Qed.

(** ACCELERATION adds 1 to the speed each frame until the frame whose time
    is past [startTime + accelerationDuration]: if the [K]-th frame from now
    is past it, DECELERATION is reached within [K + 1] frames, at a speed at
    most [K] above the current one. *)
Lemma accel_phase len now K : forall i g,
  (0 < len)%Z -> reel_ok len g -> state g = ACCELERATION ->
  accelerationDuration g < now (i + K)%nat - startTime g ->
  exists n, (n <= S K)%nat /\ state (run len now i n g) = DECELERATION /\
    speed (run len now i n g) <= speed g + inject_Z (Z.of_nat K).
Proof.
  induction K as [|K IH]; intros i g Hl Hg St Hd;
    pose proof (proj1 Hg) as Hs0;
    (destruct (accel_tick len (now i) g Hg St) as [[Hle [St' Hs']]|[Hgt [St' Hs']]];
     [| exists 1%nat; split; [lia | split; [exact St' | cbn [run]]]]).
  - rewrite Nat.add_0_r in Hd. lra.
  - change (inject_Z (Z.of_nat 0)) with 0. lra.
  - destruct (tick_times len (now i) g) as [T1 T2].
    pose proof (inject_Z_of_nat_nonneg K) as HK.
    destruct (IH (S i) (fst (tick len (now i) g))) as [n [Hn [Hc Hsp]]];
      [assumption | now apply tick_ok | assumption
      | rewrite T1, T2, Nat.add_succ_comm; assumption |].
    exists (S n). split; [lia|]. split; [exact Hc|].
    cbn [run]. rewrite inject_Z_of_nat_S. lra.
  - pose proof (inject_Z_of_nat_nonneg K) as HK. rewrite inject_Z_of_nat_S. lra.
Qed.

(** ** The spin ends *)

(** The number of frames within which a spin that accelerates at speed [s],
    and whose [K]-th frame is past its acceleration time, ends: [K + 1]
    frames of acceleration, [⌈1900 (s + K)⌉ + 1] of deceleration (the speed
    is at most [s + K] and [(20/19)^m >= 1 + m/19]), 642 of return. *)
Definition spin_bound (s : Q) (K : nat) : nat :=
  S K + S (Z.to_nat (Qceiling (1900 * (s + inject_Z (Z.of_nat K))))) + 642.

Lemma spin_ends len now K g :
  (0 < len)%Z -> reel_ok len g -> state g = ACCELERATION ->
  accelerationDuration g < now K - startTime g ->
  exists n, (n <= spin_bound (speed g) K)%nat /\
    (continues (run len now 0 n g) = false \/ stuck (run len now 0 n g)).
Proof.
  intros Hl Hg St Hd.
  destruct (accel_phase len now K 0 g Hl Hg St Hd) as [n1 [H1 [S1 V1]]].
  set (m := Z.to_nat (Qceiling (1900 * (speed g + inject_Z (Z.of_nat K))))).
  pose proof (qpow_bernoulli 19 m) as B.
  pose proof (Qceiling_nat (1900 * (speed g + inject_Z (Z.of_nat K)))) as C.
  pose proof (inject_Z_of_nat_nonneg K). pose proof (proj1 Hg).
  destruct (decel_phase len now m (0 + n1) (run len now 0 n1 g)) as [n2 [H2 [S2 O2]]];
    [assumption | now apply run_ok | assumption | fold m in C; lra |].
  destruct (return_phase len now (0 + n1 + n2) (run len now (0 + n1) n2 (run len now 0 n1 g)))
    as [n3 [H3 R3]]; [assumption | now apply run_ok, run_ok | assumption.. |].
  exists (n1 + n2 + n3)%nat. split; [unfold spin_bound; fold m; lia|].
  now rewrite !run_plus.
Qed.

(** C13: every spin ends.  From a well-formed reel that accelerates, with
    frames at times [now 0], [now 1], ..., of which the [K]-th is past the
    acceleration time, within [spin_bound (speed g) K] frames the reel
    either rests (asks for no further frame) or is the livelocked reel of
    C7, at speed 0 and offset exactly [IMAGE_WIDTH] in RETURN. *)
Theorem spin_settles_or_sticks len now K g :
  (0 < len)%Z -> reel_ok len g -> state g = ACCELERATION ->
  accelerationDuration g < now K - startTime g ->
  exists n, (n <= spin_bound (speed g) K)%nat /\
    (continues (run len now 0 n g) = false \/ stuck (run len now 0 n g)).
Proof. intros; apply spin_ends; assumption. Qed.

(** ** Witnesses *)

(** Frames every 16 ms from time 0. *)
Definition frame_time (i : nat) : Q := 16 * inject_Z (Z.of_nat i).

(** A spin just started, to accelerate for one second. *)
Definition spin_start : Globals := mkGlobals 5 ACCELERATION 0 0 1000 0.

Lemma spin_settles_or_sticks_witness :
  (0 < 5)%Z /\ reel_ok 5 spin_start /\ state spin_start = ACCELERATION /\
  accelerationDuration spin_start < frame_time 63 - startTime spin_start /\
  exists n, (n <= spin_bound (speed spin_start) 63)%nat /\
    (continues (run 5 frame_time 0 n spin_start) = false \/
     stuck (run 5 frame_time 0 n spin_start)).
Proof.
  assert (reel_ok 5 spin_start) as H by (unfold reel_ok; close_num).
  split; [lia|]. split; [exact H|]. split; [reflexivity|]. split; [close_num|].
  apply spin_settles_or_sticks; [lia | exact H | reflexivity | close_num].
Defined.
