(* ===== verification/System.v ===== *)
(** The page as a state machine: the world [init] leaves (lines 120-148),
    the click listener (lines 134-145) and the animation frame that runs a
    pending [update] (lines 67-118) as the events of an inductive step
    relation; reachability from [init]; the invariant of every reachable
    world, by induction on the steps; what a click does while the reel
    moves; the winner a settle logs; the livelock, which no event leaves;
    and [play], the browser's frame loop, with which every click ends:
    the page rests again or is livelocked, within the bound of
    [Convergence].  The image list is the section variable [images]: the script
    loads every image before it registers the listener. *)

From Stdlib Require Import Relations.
From S2P Require Import Prelude Config Canvas Render Reel Convergence.

Open Scope Q_scope.

Section System.

Context {Img : Type}.

(** The decoded images, in the order of [imageUrls]. *)
Variable images : list Img.

(** [images.length]. *)
Definition imagesLength : Z := Z.of_nat (length images).

(** Whether the reel rests, the condition of the click listener
    (line 137). *)
Definition resting (g : Globals) : bool := (speed g === 0)%js && (offset g === 0)%js.

(** The click listener (lines 134-145) at time [now], with [r] the value
    of [Math.random()].  [preventDefault] has no effect on the model. *)
Definition click (now r : Q) (w : World Img) : World Img :=
  let g := globals w in
  if resting g
  then mkWorld
         (mkGlobals BASE_SPEED ACCELERATION (startIndex g) now
                    (inject_Z (random ACCELERATION_DURATION_MIN ACCELERATION_DURATION_MAX r))
                    (offset g))
         (ctx w) (S (frames w)) (console w)
  else w.

(** The console output of the loading loop of [init] (lines 123-133), one
    group per address; the fetching itself is not modelled. *)
Definition loading_log : list LogEntry :=
  LogGroup "Loading images" ::
  flat_map (fun url => [LogGroup url; LogTime "loading"; LogTimeEnd "loading"; LogGroupEnd])
           imageUrls ++
  [LogImages (length images); LogGroupEnd].

(** [init] (lines 120-148) once the images are loaded: the canvas is
    sized to [IMAGE_COUNT] images, the loading logged, the listener
    registered, the reel drawn once.  [c0] is the context before [init]. *)
Definition init (c0 : Context2D Img) : World Img :=
  let c1 := set_canvas_size (IMAGE_WIDTH * inject_Z IMAGE_COUNT)%js IMAGE_HEIGHT c0 in
  mkWorld init_globals (snd (draw images init_globals c1)) 0 loading_log.

(** The world in which a pending callback of [update] runs: the callback
    is no longer pending. *)
Definition consume (w : World Img) : World Img :=
  mkWorld (globals w) (ctx w) (pred (frames w)) (console w).

(** The events: a click with [Math.random()] in [[0, 1)], or an animation
    frame running one pending callback. *)
Inductive step : World Img -> World Img -> Prop :=
| step_click now r w : 0 <= r < 1 -> step w (click now r w)
| step_frame now w w' res :
    (0 < frames w)%nat -> update images now (consume w) = (w', res) -> step w w'.

(** The livelocked page: the reel at rest speed one width in, in RETURN,
    with its one pending frame. *)
Definition world_stuck (w : World Img) : Prop :=
  state (globals w) = RETURN /\ speed (globals w) == 0 /\ offset (globals w) == IMAGE_WIDTH /\
  (0 <= startIndex (globals w) < imagesLength)%Z /\ frames w = 1%nat.

Inductive reachable : World Img -> Prop :=
| reachable_init c0 : reachable (init c0)
| reachable_step w w' : reachable w -> step w w' -> reachable w'.

(** The invariant of the page: the reel's, and one pending frame exactly
    while the reel does not rest. *)
Definition world_ok (w : World Img) : Prop :=
  reel_ok imagesLength (globals w) /\
  frames w = (if resting (globals w) then 0 else 1)%nat.

(** The browser's frame loop: the pending callback runs at the times
    [now i], [now (i + 1)], ..., for at most [n] frames, while one is
    pending. *)
Fixpoint play (now : nat -> Q) (i n : nat) (w : World Img) : World Img :=
  match n with
  | O => w
  | S n' => if (frames w =? 0)%nat then w
            else play now (S i) n' (fst (update images (now i) (consume w)))
  end.

(** ** Lemmas *)

(** For a non-negative speed, [update] asks for a frame exactly when the
    reel does not rest. *)
Lemma continues_resting g : 0 <= speed g -> continues g = negb (resting g).
Proof.
  intro Hs. unfold continues, resting.
  destruct (js_ltP 0 (speed g)), (js_eqP (speed g) 0), (js_eqP (offset g) 0);
    simpl; auto; lra.
Qed.

Lemma init_ok c0 : (0 < imagesLength)%Z -> world_ok (init c0).
Proof.
  intro Hl. split; [|reflexivity].
  unfold reel_ok. simpl. repeat split; intros; try discriminate; num.
Qed.

Lemma click_ok now r w : world_ok w -> world_ok (click now r w).
Proof.
  intros [Hg Hf]. unfold click. destruct (resting (globals w)) eqn:E;
    [|split; [exact Hg | rewrite E; exact Hf]].
  rewrite Hf.
  unfold resting in E. apply andb_true_iff in E as [E1 E2].
  destruct (js_eqP (offset (globals w)) 0) as [O|]; [|discriminate].
  destruct Hg as [_ [_ [Hi _]]]. split.
  - unfold reel_ok, BASE_SPEED. cbn. repeat split; intros; try discriminate; num.
  - reflexivity.
Qed.

Lemma frame_ok now w w' res :
  (0 < imagesLength)%Z -> world_ok w -> (0 < frames w)%nat ->
  update images now (consume w) = (w', res) -> world_ok w'.
Proof.
  intros Hl [Hg Hf] Hp Hu. unfold imagesLength in *.
  destruct (resting (globals w)) eqn:E; rewrite Hf in Hp; [inversion Hp|].
  pose proof Hg as [_ [_ [Hi _]]].
  destruct (update_tick images now (consume w) Hl Hi) as [_ [G [C1 C2]]].
  rewrite Hu in G, C1, C2. cbn [fst consume globals frames console] in *.
  unfold world_ok. rewrite G.
  pose proof (tick_ok _ now (globals w) Hl Hg) as Ok.
  split; [exact Ok|].
  destruct Ok as [S' _]. rewrite (continues_resting _ S') in C1, C2.
  destruct (resting (fst (tick _ now (globals w))));
    [rewrite (proj1 (C2 eq_refl)) | rewrite (proj1 (C1 eq_refl))];
    rewrite Hf; reflexivity.
Qed.

Lemma play_reachable now n : forall i w, reachable w -> reachable (play now i n w).
Proof.
  induction n as [|n IH]; intros i w R; cbn [play]; [exact R|].
  destruct (frames w =? 0)%nat eqn:F; [exact R|]. apply Nat.eqb_neq in F.
  apply IH. eapply reachable_step; [exact R|].
  apply (step_frame (now i) w _ (snd (update images (now i) (consume w)))); [lia|].
  apply surjective_pairing.
Qed.

(** While the reel keeps asking for frames, the page's frame loop runs the
    frames of [run]. *)
Lemma play_run now n : forall i w,
  (0 < imagesLength)%Z -> world_ok w ->
  (forall m, (m < n)%nat -> continues (run imagesLength now i m (globals w)) = true) ->
  globals (play now i n w) = run imagesLength now i n (globals w) /\ world_ok (play now i n w).
Proof.
  induction n as [|n IH]; intros i w Hl Hw Hc; [split; [reflexivity | exact Hw]|].
  pose proof (Hc 0%nat ltac:(lia)) as C0. cbn [run] in C0.
  pose proof Hw as [Hg Hf]. pose proof Hg as [Hs [_ [Hi _]]].
  rewrite (continues_resting _ Hs) in C0. apply negb_true_iff in C0.
  rewrite C0 in Hf. cbn [play]. rewrite Hf. cbn [Nat.eqb].
  assert (world_ok (fst (update images (now i) (consume w)))) as Hw'
    by (eapply frame_ok; [exact Hl | exact Hw | lia | apply surjective_pairing]).
  unfold imagesLength in *.
  destruct (update_tick images (now i) (consume w) Hl Hi) as [_ [G _]].
  cbn [globals consume] in G.
  destruct (IH (S i) _ Hl Hw') as [IG IO].
  - intros m Hm. rewrite G. exact (Hc (S m) ltac:(lia)).
  - split; [rewrite IG, G; reflexivity | exact IO].
Qed.

Lemma stuck_not_resting g : stuck g -> resting g = false.
Proof.
  intros [_ [_ Ho]]. unfold resting. destruct (js_eqP (offset g) 0); [|apply andb_false_r].
  unfold IMAGE_WIDTH in Ho. lra.
Qed.

(** A spin of a page satisfying the invariant ends within [spin_bound]
    frames, once a frame is past the acceleration time: no frame is pending
    any more, or the page is the livelocked one. *)
Lemma page_spin_ends now K w :
  (0 < imagesLength)%Z -> world_ok w -> state (globals w) = ACCELERATION ->
  accelerationDuration (globals w) < now K - startTime (globals w) ->
  exists n, (n <= spin_bound (speed (globals w)) K)%nat /\
    (frames (play now 0 n w) = 0%nat \/ world_stuck (play now 0 n w)).
Proof.
  intros Hl Hw St Hd. pose proof Hw as [Hg _].
  destruct (spin_ends _ now K _ Hl Hg St Hd) as [n [Hn R]].
  destruct (nat_first_false (fun m => continues (run imagesLength now 0 m (globals w))) n)
    as [[m [Hm [Cm Hk]]]|All].
  - exists m. split; [lia|]. left.
    destruct (play_run now m 0 w Hl Hw Hk) as [G [Hg' Hf']].
    rewrite Hf', G. rewrite G in Hg'.
    rewrite (continues_resting _ (proj1 Hg')) in Cm. apply negb_false_iff in Cm.
    now rewrite Cm.
  - destruct R as [C|Sk]; [rewrite All in C by lia; discriminate|].
    exists n. split; [lia|]. right.
    destruct (play_run now n 0 w Hl Hw (fun k Hk => All k ltac:(lia))) as [G [Hg' Hf']].
    rewrite G in Hf', Hg'. rewrite (stuck_not_resting _ Sk) in Hf'.
    destruct Sk as [S1 [S2 S3]]. destruct Hg' as [_ [_ [Hi _]]].
    unfold world_stuck. rewrite G. auto.
Qed.

(** ** Properties *)

Lemma reachable_ok w : (0 < imagesLength)%Z -> reachable w -> world_ok w.
Proof.
  intros Hl R. induction R as [c0|w w' R IH S].
  - now apply init_ok.
  - destruct S as [now r w Hr|now w w' res Hp Hu].
    + now apply click_ok.
    + eapply frame_ok; eauto.
Qed.

(** C1: every world reachable from [init] by clicks and frames satisfies
    the invariant: the reel's ([reel_ok]: non-negative speed and offset,
    [startIndex] a valid index, the speed bounds of each phase) and exactly
    one pending frame while the reel does not rest, none while it rests. *)
Theorem reachable_world_ok w : (0 < imagesLength)%Z -> reachable w -> world_ok w.
Proof. intros; apply reachable_ok; assumption. Qed.

(** C6: one animation loop at a time: a reachable page has at most one
    pending frame, and while one is pending (the reel moves) a click
    changes nothing. *)
Theorem single_animation_loop w :
  (0 < imagesLength)%Z -> reachable w ->
  (frames w <= 1)%nat /\ (frames w = 1%nat -> forall now r, click now r w = w).
Proof.
  intros Hl R. destruct (reachable_ok w Hl R) as [_ Hf].
  unfold click. destruct (resting (globals w)); rewrite Hf; split; auto; discriminate.
Qed.

Lemma settle_logs now w w' res :
  (0 < imagesLength)%Z -> world_ok w -> (0 < frames w)%nat ->
  update images now (consume w) = (w', res) -> frames w' = 0%nat ->
  let k := Z.rem (1 + startIndex (globals w')) imagesLength in
  console w' = console w ++ winner_log k /\ (0 <= k < imagesLength)%Z /\
  state (globals w') = RETURN /\ speed (globals w') == 0 /\ offset (globals w') == 0 /\
  (length images = length imageUrls -> exists url, image_at imageUrls (Some k) = Some url).
Proof.
  intros Hl [Hg Hf] Hp Hu H0 k. unfold imagesLength in *.
  destruct (resting (globals w)); rewrite Hf in Hp; [inversion Hp|].
  pose proof Hg as [Hs [Ho [Hi _]]].
  destruct (update_tick images now (consume w) Hl Hi) as [_ [G [C1 C2]]].
  rewrite Hu in G, C1, C2. cbn [fst consume globals frames console] in *.
  destruct (continues (fst (tick _ now (globals w)))) eqn:C.
  - rewrite (proj1 (C1 eq_refl)) in H0. discriminate.
  - destruct (C2 eq_refl) as [_ Cw].
    destruct (settle_center _ now (globals w) Hs Ho C) as [I [St [Sp [Of _]]]].
    destruct (tick_ok _ now (globals w) Hl Hg) as [_ [_ [Hi' _]]].
    rewrite I in Cw. unfold winner in Cw. rewrite <- G in *.
    assert (0 <= k < Z.of_nat (length images))%Z as Hk.
    { unfold k. rewrite Z.rem_mod_nonneg by lia. apply Z.mod_pos_bound. lia. }
    repeat split; auto; try lia.
    intro E. rewrite E in Hk. simpl. destruct (Z.ltb_spec k 0); [lia|].
    apply nth_error_lt. lia.
Qed.

(** C2: the winner.  When a frame of a page satisfying the invariant
    ends the spin (no frame is pending after it), the reel rests in RETURN
    at offset 0, and the console receives exactly the winner group for the
    index [(1 + startIndex) mod images.length]: the centre slot 1 of the
    strip drawn from [startIndex].  That index is a valid index of
    [images], and of [imageUrls] when both have the same length, so the
    logged image address is defined. *)
Theorem settle_logs_winner now w w' res :
  (0 < imagesLength)%Z -> world_ok w -> (0 < frames w)%nat ->
  update images now (consume w) = (w', res) -> frames w' = 0%nat ->
  let k := Z.rem (1 + startIndex (globals w')) imagesLength in
  console w' = console w ++ winner_log k /\ (0 <= k < imagesLength)%Z /\
  state (globals w') = RETURN /\ speed (globals w') == 0 /\ offset (globals w') == 0 /\
  (length images = length imageUrls -> exists url, image_at imageUrls (Some k) = Some url).
Proof. exact (settle_logs now w w' res). Qed.

Lemma stuck_step w w' :
  (0 < imagesLength)%Z -> world_stuck w -> step w w' ->
  world_stuck w' /\ console w' = console w.
Proof.
  intros Hl [St [Sp [Of [Hi Hf]]]] S. destruct S as [now r w Hr|now w w' res Hp Hu].
  - assert (resting (globals w) = false) as R.
    { unfold resting. rewrite Of. now rewrite andb_false_r. }
    unfold click. rewrite R. repeat split; auto; lia.
  - unfold imagesLength in *.
    destruct (update_tick images now (consume w) Hl Hi) as [_ [G [C1 _]]].
    rewrite Hu in G, C1. cbn [fst consume globals frames console] in *.
    destruct (tick_stuck (Z.of_nat (length images)) now (globals w) St Sp Of)
      as [St' [Sp' [Of' [I' C']]]].
    destruct (C1 C') as [F' Co']. rewrite <- G in *. rewrite Hf in F'.
    repeat split; auto; rewrite I'; apply Hi.
Qed.

(** C8: the livelock persists.  From a page whose reel rests in RETURN at
    offset exactly [IMAGE_WIDTH] with its pending frame, no sequence of
    clicks and frames ever settles the reel or logs a winner: every click
    is ignored and every frame leaves the reel where it is and asks for
    the next one. *)
Theorem stuck_forever w w' :
  (0 < imagesLength)%Z -> world_stuck w -> clos_refl_trans_1n _ step w w' ->
  world_stuck w' /\ console w' = console w /\ (frames w' = 1)%nat.
Proof.
  intros Hl Hw R. induction R as [|w1 w2 w3 S R IH].
  - split; [exact Hw | split; [reflexivity | apply Hw]].
  - destruct (stuck_step w1 w2 Hl Hw S) as [Hw2 C2].
    destruct (IH Hw2) as [Hw3 [C3 F3]]. rewrite C3, C2. auto.
Qed.

(** C14: every click ends.  A click on a resting page reachable from
    [init] starts a spin; when the frames run at the times [now 0],
    [now 1], ..., of which the [K]-th is more than
    [ACCELERATION_DURATION_MAX + 1] milliseconds after the click (the
    longest duration [random] draws, C12), then whatever [Math.random()]
    returned, within [spin_bound BASE_SPEED K] frames the
    page is a reachable page with no frame pending (the spin settled and
    logged its winner, C2) or the livelocked page (C8). *)
Theorem click_spin_ends t0 r now K w :
  (0 < imagesLength)%Z -> reachable w -> resting (globals w) = true -> 0 <= r < 1 ->
  t0 + inject_Z (ACCELERATION_DURATION_MAX + 1) < now K ->
  exists n, (n <= spin_bound BASE_SPEED K)%nat /\
    reachable (play now 0 n (click t0 r w)) /\
    (frames (play now 0 n (click t0 r w)) = 0%nat \/ world_stuck (play now 0 n (click t0 r w))).
Proof.
  intros Hl R Hr Hr01 HK.
  assert (reachable (click t0 r w)) as R1 by (eapply reachable_step; [exact R | now constructor]).
  pose proof (random_range ACCELERATION_DURATION_MIN ACCELERATION_DURATION_MAX r
                ltac:(unfold ACCELERATION_DURATION_MIN, ACCELERATION_DURATION_MAX; lia)
                ltac:(unfold ACCELERATION_DURATION_MAX; lia) Hr01) as [_ D].
  rewrite Zle_Qle in D.
  destruct (page_spin_ends now K (click t0 r w)) as [n [Hn E]];
    [exact Hl | now apply reachable_ok | unfold click; now rewrite Hr
    | unfold click; rewrite Hr; cbn [globals accelerationDuration startTime]; lra |].
  exists n. split; [|split; [now apply play_reachable | exact E]].
  unfold click in Hn. rewrite Hr in Hn. exact Hn.
Qed.


(** C18: the last picture.  The frame that ends a spin paints the white
    background, the strip at the offset it had before the frame's motion
    (between 0 and 0.2 pixels past the centre slot), the stroke with the
    divider, and then the highlight of the centre slot at [IMAGE_WIDTH],
    computed from the snapped offset 0.  No frame follows: the picture left
    on the canvas shows the strip up to 0.2 pixels off the rest position
    under the highlight. *)
Theorem settle_frame_paints now w w' res :
  (0 < imagesLength)%Z -> world_ok w -> (0 < frames w)%nat ->
  update images now (consume w) = (w', res) -> frames w' = 0%nat ->
  let g2 := wrapOffset imagesLength (accelerationCheck now (globals w)) in
  let c := ctx w in
  exists ps x,
    Forall2 (slot_paint images g2) [-1; 0; 1; 2; 3]%Z ps /\
    painted (ctx w') =
      painted c ++ PaintRect "#ffffff" 0 0 (cv_width c) (cv_height c) ::
        ps ++ [PaintStroke "rgba(0, 0, 0, 0.5)"
                 (path c ++ divider_subpaths (inject_Z (Math_floor (cv_width c / 2)%js) + 0.5)%js
                                             (cv_height c));
               PaintRect "rgba(255, 0, 255, 0.2)" x 0 IMAGE_WIDTH IMAGE_HEIGHT] /\
    x == IMAGE_WIDTH /\ 0 <= offset g2 <= 1#5.
Proof.
  intros Hl [Hg Hf] Hp Hu H0 g2 c. unfold imagesLength in *.
  destruct (resting (globals w)); rewrite Hf in Hp; [inversion Hp|].
  pose proof Hg as [Hs [Ho [Hi _]]].
  destruct (update_paints images now (consume w) Hl Hi) as [ps [Hps P]].
  destruct (update_tick images now (consume w) Hl Hi) as [_ [_ [C1 _]]].
  rewrite Hu in P, C1. cbn [fst consume globals ctx frames] in P, C1.
  destruct (continues (fst (tick _ now (globals w)))) eqn:C;
    [rewrite (proj1 (C1 eq_refl)) in H0; discriminate|].
  destruct (settle_center _ now (globals w) Hs Ho C) as [I [_ [_ [Of Bd]]]].
  destruct (tick_prefix (Z.of_nat (length images)) now (globals w) Ho) as [_ [O2 _]].
  unfold tick in C, I, Of. cbn [fst snd] in C, I, Of. fold g2 in C, I, Of, O2, Bd, P.
  rewrite C in P.
  eexists ps, _. split; [exact Hps|]. split; [exact P|]. split; [|split; [apply O2 | exact Bd]].
  js_norm. rewrite Of, I. unfold IMAGE_WIDTH. reflexivity.
Qed.

End System.

(** ** Witnesses *)

(** Five images, as many as [imageUrls], and a sized blank canvas. *)
Definition five_images : list nat := [0; 1; 2; 3; 4]%nat.
Definition blank_context : Context2D nat :=
  set_canvas_size 384 128 (mkContext 0 0 "" "" [] []).
(** The reel 0.05 past its slot, with its pending frame. *)
Definition settling_page : World nat := mkWorld settling_reel blank_context 1 [].
(** The livelocked page. *)
Definition stuck_page : World nat := mkWorld stuck_reel blank_context 1 [].

Lemma reachable_world_ok_witness :
  (0 < imagesLength five_images)%Z /\ reachable five_images (init five_images blank_context) /\
  world_ok five_images (init five_images blank_context).
Proof.
  split; [close_num|]. split; [constructor|].
  apply (reachable_world_ok five_images); [close_num | constructor].
Defined.

Lemma single_animation_loop_witness :
  (0 < imagesLength five_images)%Z /\ reachable five_images (init five_images blank_context) /\
  ((frames (init five_images blank_context) <= 1)%nat /\
   (frames (init five_images blank_context) = 1%nat ->
    forall now r, click now r (init five_images blank_context) = init five_images blank_context)).
Proof.
  split; [close_num|]. split; [constructor|].
  apply (single_animation_loop five_images); [close_num | constructor].
Defined.

Lemma settle_logs_winner_witness :
  let w' := fst (update five_images 2000 (consume settling_page)) in
  let res := snd (update five_images 2000 (consume settling_page)) in
  (0 < imagesLength five_images)%Z /\ world_ok five_images settling_page /\
  (0 < frames settling_page)%nat /\
  update five_images 2000 (consume settling_page) = (w', res) /\ frames w' = 0%nat /\
  (let k := Z.rem (1 + startIndex (globals w')) (imagesLength five_images) in
   console w' = console settling_page ++ winner_log k /\
   (0 <= k < imagesLength five_images)%Z /\
   state (globals w') = RETURN /\ speed (globals w') == 0 /\ offset (globals w') == 0 /\
   (length five_images = length imageUrls -> exists url, image_at imageUrls (Some k) = Some url)).
Proof.
  intros w' res. split; [close_num|]. split; [close_num|]. split; [close_num|].
  split; [close_num|]. split; [close_num|].
  apply (settle_logs_winner five_images 2000 settling_page w' res); close_num.
Defined.

Lemma stuck_forever_witness :
  (0 < imagesLength five_images)%Z /\ world_stuck five_images stuck_page /\
  clos_refl_trans_1n _ (step five_images) stuck_page stuck_page /\
  (world_stuck five_images stuck_page /\ console stuck_page = console stuck_page /\
   (frames stuck_page = 1)%nat).
Proof.
  split; [close_num|]. split; [close_num|]. split; [constructor|].
  apply (stuck_forever five_images); [close_num | close_num | constructor].
Defined.

Lemma click_spin_ends_witness :
  (0 < imagesLength five_images)%Z /\ reachable five_images (init five_images blank_context) /\
  resting (globals (init five_images blank_context)) = true /\ 0 <= 1#2 < 1 /\
  0 + inject_Z (ACCELERATION_DURATION_MAX + 1) < frame_time 94 /\
  exists n, (n <= spin_bound BASE_SPEED 94)%nat /\
    let w' := play five_images frame_time 0 n (click 0 (1#2) (init five_images blank_context)) in
    reachable five_images w' /\ (frames w' = 0%nat \/ world_stuck five_images w').
Proof.
  assert (reachable five_images (init five_images blank_context)) as R by constructor.
  split; [close_num|]. split; [exact R|]. split; [reflexivity|]. split; [close_num|].
  split; [close_num|].
  apply (click_spin_ends five_images); [close_num | exact R | reflexivity | close_num | close_num].
Defined.


Lemma settle_frame_paints_witness :
  let w' := fst (update five_images 2000 (consume settling_page)) in
  let res := snd (update five_images 2000 (consume settling_page)) in
  (0 < imagesLength five_images)%Z /\ world_ok five_images settling_page /\
  (0 < frames settling_page)%nat /\
  update five_images 2000 (consume settling_page) = (w', res) /\ frames w' = 0%nat /\
  let g2 := wrapOffset (imagesLength five_images)
              (accelerationCheck 2000 (globals settling_page)) in
  let c := ctx settling_page in
  exists ps x,
    Forall2 (slot_paint five_images g2) [-1; 0; 1; 2; 3]%Z ps /\
    painted (ctx w') =
      painted c ++ PaintRect "#ffffff" 0 0 (cv_width c) (cv_height c) ::
        ps ++ [PaintStroke "rgba(0, 0, 0, 0.5)"
                 (path c ++ divider_subpaths (inject_Z (Math_floor (cv_width c / 2)%js) + 0.5)%js
                                             (cv_height c));
               PaintRect "rgba(255, 0, 255, 0.2)" x 0 IMAGE_WIDTH IMAGE_HEIGHT] /\
    x == IMAGE_WIDTH /\ 0 <= offset g2 <= 1#5.
Proof.
  intros w' res.
  assert (world_ok five_images settling_page) as H by (unfold world_ok, reel_ok; close_num).
  split; [close_num|]. split; [exact H|]. split; [close_num|].
  split; [apply surjective_pairing|]. split; [close_num|].
  apply (settle_frame_paints five_images 2000 settling_page w' res);
    [close_num | exact H | close_num | apply surjective_pairing | close_num].
Defined.
