(* ===== verification/Refinement.v ===== *)
(** The reel of the specification (section 4.1 of [spec.md]) as an
    abstract machine, written from the specification's words: the four
    phases with [Idle], the per-tick bookkeeping of the wrap-around, the
    rule of each phase, and the trigger.  The numbers are exact rationals;
    the machine is parametrised by its configuration, whose small constants
    the specification leaves unnamed (the speed threshold of the
    deceleration, the snap threshold and the minimum step of the return).
    Then the refinement: a frame of [tick] (a non-resting reel) is a tick of
    the machine, up to the offset, which in the code has integrated the
    speed of before the phase's adjustment (line 85) where the
    specification integrates the adjusted speed; a click is a trigger. *)

From S2P Require Import Prelude Config Canvas Render Reel Convergence System.

Open Scope Q_scope.

Module Spec.

Inductive Phase : Type := Idle | Accelerating | Decelerating | Returning.

Scheme Equality for Phase.

(** The configuration of the machine (section 8 names the first ones). *)
Record Config : Type := mkConfig {
  imageWidth : Q;
  imageCount : Z;
  imageSetSize : Z;
  baseSpeed : Q;
  accelerationStep : Q;
  decelerationMultiplier : Q;
  returnMultiplier : Q;
  durationMin : Z;
  durationMax : Z;
  speedEpsilon : Q;
  offsetEpsilon : Q;
  minStep : Q
}.

(** The ReelState of section 3. *)
Record Reel : Type := mkReel {
  sp_phase : Phase;
  sp_speed : Q;
  sp_offset : Q;
  sp_startIndex : Z;
  sp_spinStartTime : Q;
  sp_accelerationDuration : Q
}.

Definition with_phase (p : Phase) (r : Reel) : Reel :=
  mkReel p (sp_speed r) (sp_offset r) (sp_startIndex r) (sp_spinStartTime r)
         (sp_accelerationDuration r).

Definition with_motion (p : Phase) (s o : Q) (r : Reel) : Reel :=
  mkReel p s o (sp_startIndex r) (sp_spinStartTime r) (sp_accelerationDuration r).

Definition Qltb (a b : Q) : bool := negb (Qle_bool b a).

Section Machine.

Variable cfg : Config.

(** "if [offset] exceeds one image width, advance [startIndex] by one
    position (circularly, modulo ImageSet size) and reduce [offset] by
    exactly one image width". *)
Definition wrap (r : Reel) : Reel :=
  if Qltb (imageWidth cfg) (sp_offset r)
  then mkReel (sp_phase r) (sp_speed r) (sp_offset r - imageWidth cfg)
              ((sp_startIndex r + 1) mod imageSetSize cfg)
              (sp_spinStartTime r) (sp_accelerationDuration r)
  else r.

(** "compute the image-set index nearest the reel's logical center given
    current [offset]" (with the tie-break of section 9: the integer
    division of [(center + offset) / imageWidth]). *)
Definition nearestIndex (o : Q) : Z :=
  Qfloor ((imageWidth cfg * inject_Z (imageCount cfg) / 2 + o) / imageWidth cfg).

(** "compute the signed pixel [distance] from the current offset to that
    center-aligned target; set the per-tick adjustment to
    [distance * returnMultiplier], floored in magnitude by a small minimum
    step and signed to match [distance]'s sign". *)
Definition adjustment (o : Q) : Q :=
  let target := imageWidth cfg * inject_Z (nearestIndex o - imageCount cfg / 2) in
  let distance := target - o in
  Math_sign distance * Math_max (minStep cfg) (Qabs (distance * returnMultiplier cfg)).

(** The rule of each phase, once the bookkeeping is done. *)
Definition move (r : Reel) : Reel :=
  let s := sp_speed r in
  let o := sp_offset r in
  match sp_phase r with
  | Idle => r
  | Accelerating =>
      let s' := s + accelerationStep cfg in
      with_motion Accelerating s' (o + s') r
  | Decelerating =>
      let s' := s * decelerationMultiplier cfg in
      if Qltb s' (speedEpsilon cfg)
      then with_motion Returning 0 o r
      else with_motion Decelerating s' (o + s') r
  | Returning =>
      let o' := o + adjustment o in
      if Qle_bool (Qabs o') (offsetEpsilon cfg)
      then with_motion Idle 0 0 r
      else with_motion Returning s o' r
  end.

(** One tick at time [now]: no autonomous transition from [Idle]; the end
    of the acceleration on elapsed time; the bookkeeping; the phase's rule. *)
Definition tick (now : Q) (r : Reel) : Reel :=
  if Phase_beq (sp_phase r) Idle then r
  else
    let r0 := if Phase_beq (sp_phase r) Accelerating &&
                 Qltb (sp_accelerationDuration r) (now - sp_spinStartTime r)
              then with_phase Decelerating r else r in
    move (wrap r0).

(** The trigger at time [now]: accepted only at rest in [Idle], with a
    duration drawn from [[durationMin, durationMax]]; a no-op otherwise. *)
Inductive trigger (now : Q) : Reel -> Reel -> Prop :=
| trigger_accept r d :
    sp_phase r = Idle -> sp_speed r == 0 -> sp_offset r == 0 ->
    inject_Z (durationMin cfg) <= d <= inject_Z (durationMax cfg) ->
    trigger now r (mkReel Accelerating (baseSpeed cfg) (sp_offset r) (sp_startIndex r) now d)
| trigger_reject r :
    ~ (sp_phase r = Idle /\ sp_speed r == 0 /\ sp_offset r == 0) -> trigger now r r.

End Machine.

(** Equality of reels up to the equality of numbers. *)
Definition equiv (r r' : Reel) : Prop :=
  sp_phase r = sp_phase r' /\ sp_speed r == sp_speed r' /\ sp_offset r == sp_offset r' /\
  sp_startIndex r = sp_startIndex r' /\ sp_spinStartTime r == sp_spinStartTime r' /\
  sp_accelerationDuration r == sp_accelerationDuration r'.

End Spec.

(** ** The code's configuration and the view of its globals *)

(** The machine the code is meant to be: the constants of lines 4-13, the
    speed threshold 0.01 of line 90, the snap threshold 0.1 of line 101 and
    the minimum step 0.1 of line 99. *)
Definition code_config (len : Z) : Spec.Config :=
  Spec.mkConfig IMAGE_WIDTH IMAGE_COUNT len BASE_SPEED ACCELERATION_STEP
    DECELERATION_MULTIPLIER RETURN_MULTIPLIER
    ACCELERATION_DURATION_MIN ACCELERATION_DURATION_MAX (1#100) (1#10) (1#10).

Definition phase_of (s : STATE) : Spec.Phase :=
  match s with
  | ACCELERATION => Spec.Accelerating
  | DECELERATION => Spec.Decelerating
  | RETURN => Spec.Returning
  end.

(** The globals as a reel of the machine, the phase read from [state]. *)
Definition moving_view (g : Globals) : Spec.Reel :=
  Spec.mkReel (phase_of (state g)) (speed g) (offset g) (startIndex g) (startTime g)
              (accelerationDuration g).

(** The globals as a reel of the machine: [Idle] is the code's rest, speed
    and offset 0 (the condition of the click listener, line 137). *)
Definition view (g : Globals) : Spec.Reel :=
  if resting g then Spec.with_phase Spec.Idle (moving_view g) else moving_view g.

(** A reel with its offset moved by [d]. *)
Definition shifted (d : Q) (r : Spec.Reel) : Spec.Reel :=
  Spec.with_motion (Spec.sp_phase r) (Spec.sp_speed r) (Spec.sp_offset r + d) r.

(** ** The machine respects the equality of numbers *)

Ltac spec_simpl :=
  cbn [Spec.sp_phase Spec.sp_speed Spec.sp_offset Spec.sp_startIndex Spec.sp_spinStartTime
       Spec.sp_accelerationDuration Spec.with_motion Spec.with_phase] in *.

#[export] Instance equiv_Equivalence : Equivalence Spec.equiv.
Proof.
  unfold Spec.equiv. split.
  - intros r. repeat split; reflexivity.
  - intros r r' (?&?&?&?&?&?). repeat split; symmetry; assumption.
  - intros r r' r'' (?&?&?&?&?&?) (?&?&?&?&?&?).
    repeat split; etransitivity; eassumption.
Qed.

#[export] Instance Qltb_Proper : Proper (Qeq ==> Qeq ==> eq) Spec.Qltb.
Proof. exact js_lt_Proper. Qed.

#[export] Instance Qle_bool_Proper : Proper (Qeq ==> Qeq ==> eq) Qle_bool.
Proof. exact js_le_Proper. Qed.

#[export] Instance nearestIndex_Proper cfg : Proper (Qeq ==> eq) (Spec.nearestIndex cfg).
Proof. intros a b E. unfold Spec.nearestIndex. now rewrite E. Qed.

#[export] Instance adjustment_Proper cfg : Proper (Qeq ==> Qeq) (Spec.adjustment cfg).
Proof.
  intros a b E. unfold Spec.adjustment. cbv zeta.
  rewrite (nearestIndex_Proper cfg a b E).
  set (x := Spec.imageWidth cfg * inject_Z (Spec.nearestIndex cfg b - Spec.imageCount cfg / 2)).
  assert (x - a == x - b) as D by (rewrite E; reflexivity).
  rewrite (Math_sign_Proper _ _ D), D. reflexivity.
Qed.

#[export] Instance move_Proper cfg : Proper (Spec.equiv ==> Spec.equiv) (Spec.move cfg).
Proof.
  intros [p s o i t d] [p' s' o' i' t' d'] (P&S&O&I&T&D).
  spec_simpl. subst p' i'. unfold Spec.move, Spec.equiv. spec_simpl.
  destruct p.
  - repeat split; assumption.
  - spec_simpl. repeat split; try assumption; rewrite ?S, ?O; reflexivity.
  - assert (Spec.Qltb (s * Spec.decelerationMultiplier cfg) (Spec.speedEpsilon cfg)
            = Spec.Qltb (s' * Spec.decelerationMultiplier cfg) (Spec.speedEpsilon cfg)) as B
      by (now rewrite S).
    rewrite B. destruct (Spec.Qltb (s' * _) _); spec_simpl;
      repeat split; try assumption; rewrite ?S, ?O; reflexivity.
  - assert (o + Spec.adjustment cfg o == o' + Spec.adjustment cfg o') as A by (now rewrite O).
    assert (Qle_bool (Qabs (o + Spec.adjustment cfg o)) (Spec.offsetEpsilon cfg)
            = Qle_bool (Qabs (o' + Spec.adjustment cfg o')) (Spec.offsetEpsilon cfg)) as B
      by (now rewrite A).
    rewrite B. destruct (Qle_bool (Qabs (o' + _)) _); spec_simpl; repeat split; try assumption; reflexivity.
Qed.

(** ** The parts of a frame are the parts of a tick *)

Lemma resting_moving g : ~ (speed g == 0 /\ offset g == 0) -> resting g = false.
Proof.
  intro H. unfold resting.
  destruct (js_eqP (speed g) 0), (js_eqP (offset g) 0); auto; tauto.
Qed.

Lemma resting_rest g : speed g == 0 -> offset g == 0 -> resting g = true.
Proof. intros Hs Ho. unfold resting. now rewrite Hs, Ho. Qed.

(** A tick of the machine from a moving reel is the end of the
    acceleration of line 71, the wrap-around and the phase's rule. *)
Lemma tick_view cfg now g :
  resting g = false ->
  Spec.tick cfg now (view g) = Spec.move cfg (Spec.wrap cfg (moving_view (accelerationCheck now g))).
Proof.
  intro R. unfold view. rewrite R. unfold Spec.tick, accelerationCheck. cbv zeta.
  assert ((now - startTime g > accelerationDuration g)%js
          = Spec.Qltb (accelerationDuration g) (now - startTime g)) as E
    by (unfold Spec.Qltb; now rewrite js_sub_eq).
  rewrite E. unfold moving_view.
  destruct (state g) eqn:St; cbn [phase_of Spec.sp_phase Spec.Phase_beq STATE_beq andb];
    rewrite ?andb_false_r, ?andb_true_r; cbv beta iota; spec_simpl;
    [destruct (Spec.Qltb (accelerationDuration g) _) | |]; gsimpl; rewrite ?St; reflexivity.
Qed.

(** Below two widths, the [%] of line 77 removes exactly one width, and
    [Z.rem] on a non-negative index is [mod]. *)
Lemma wrap_view len g :
  (0 < len)%Z -> 0 <= offset g < 2 * IMAGE_WIDTH -> (0 <= startIndex g)%Z ->
  Spec.equiv (Spec.wrap (code_config len) (moving_view g)) (moving_view (wrapOffset len g)).
Proof.
  intros Hl Ho Hi. unfold Spec.wrap.
  change (Spec.Qltb (Spec.imageWidth (code_config len)) (Spec.sp_offset (moving_view g)))
    with (offset g > IMAGE_WIDTH)%js.
  destruct (wrapOffset_cases len g) as [[L [B ->]]|[L [B ->]]]; rewrite B; [|reflexivity].
  unfold Spec.equiv, moving_view. gsimpl. spec_simpl.
  cbn [code_config Spec.imageWidth Spec.imageSetSize].
  repeat split; try reflexivity.
  - symmetry. apply js_fmod_once; unfold IMAGE_WIDTH in *; lra.
  - symmetry. apply Z.rem_mod_nonneg; lia.
Qed.

(** Multiplying by a positive number keeps the sign. *)
Lemma Math_sign_scale d k : 0 < k -> Math_sign (Qmult d k) = Math_sign d.
Proof.
  intro Hk. destruct (Q_dec d 0) as [[L|L]|L].
  - rewrite !Math_sign_neg; [reflexivity | exact L |].
    rewrite <- (Qmult_0_l k). now apply (Qmult_lt_r d 0 k Hk).
  - rewrite !Math_sign_pos; [reflexivity | exact L |].
    rewrite <- (Qmult_0_l k). now apply (Qmult_lt_r 0 d k Hk).
  - rewrite !Math_sign_zero; [reflexivity | exact L | rewrite L; ring].
Qed.

(** The snap of line 101 respects the equality of numbers. *)
Lemma snap_eq x y :
  x == y -> (if Qle_bool (Qabs x) (1#10) then 0 else x) == (if Qle_bool (Qabs y) (1#10) then 0 else y).
Proof. intro E. rewrite E. now destruct (Qle_bool _ _). Qed.

(** The slot of line 83 is the machine's nearest index. *)
Lemma centerIndex_nearest len g : centerIndex g = Spec.nearestIndex (code_config len) (offset g).
Proof. unfold centerIndex, Spec.nearestIndex. apply Math_floor_Proper. js_norm. reflexivity. Qed.

(** The restoring step of lines 95-103 is the machine's adjustment and
    snap. *)
Lemma returnStep_adjustment len o :
  returnStep (Spec.nearestIndex (code_config len) o) o ==
  (let o' := o + Spec.adjustment (code_config len) o in
   if Qle_bool (Qabs o') (Spec.offsetEpsilon (code_config len)) then 0 else o').
Proof.
  change (Spec.offsetEpsilon (code_config len)) with (1#10).
  rewrite returnStep_restore. unfold restore, Spec.adjustment. cbv zeta.
  change (Spec.imageCount (code_config len) / 2)%Z with 1%Z.
  set (d := Spec.imageWidth (code_config len) *
            inject_Z (Spec.nearestIndex (code_config len) o - 1) - o).
  assert (((IMAGE_WIDTH * inject_Z (Spec.nearestIndex (code_config len) o - 1) - o)
           * RETURN_MULTIPLIER)%js == d * (1#10)) as E by (unfold d; js_norm; reflexivity).
  rewrite (Math_sign_Proper _ _ E), Math_sign_scale by reflexivity.
  apply snap_eq. js_norm. unfold d.
  cbn [code_config Spec.minStep Spec.returnMultiplier Spec.imageWidth].
  unfold Math_abs, RETURN_MULTIPLIER. ring.
Qed.

Ltac equiv_close :=
  unfold Spec.equiv; spec_simpl;
  cbn [code_config Spec.accelerationStep Spec.decelerationMultiplier Spec.speedEpsilon
       Spec.offsetEpsilon phase_of] in *;
  unfold ACCELERATION_STEP, DECELERATION_MULTIPLIER in *;
  repeat split; try reflexivity; try (symmetry; assumption); try assumption;
  try match goal with
      | H : ?a = ?b |- ?b == ?a => rewrite H; reflexivity
      | H : ?a = ?b |- ?a == ?b => rewrite H; reflexivity
      end;
  try lra.

(** The rule of each phase: [motion] (lines 85-104) is the machine's
    [move], the offset ahead by the speed before the rule minus the speed
    after it. *)
Lemma move_view len g :
  0 <= offset g <= IMAGE_WIDTH -> 0 <= speed g ->
  (state g = DECELERATION -> 0 < speed g) -> (state g = RETURN -> speed g == 0) ->
  let g' := motion (centerIndex g) g in
  Spec.equiv (Spec.move (code_config len) (moving_view g))
             (shifted (speed g' - speed g) (view g')).
Proof.
  intros Ho Hs Hd Hr g'.
  destruct (motion_cases (centerIndex g) g) as [Mi M]. fold g' in Mi, M.
  destruct (motion_times (centerIndex g) g) as [Mt Md]. fold g' in Mt, Md.
  unfold Spec.move, shifted, view, moving_view at 1. spec_simpl.
  destruct (state g) eqn:St; cbn [phase_of].
  - destruct M as [S' [Sp Of]].
    rewrite resting_moving by lra. unfold moving_view. rewrite S'. equiv_close.
  - destruct M as [Of [[L [S' Sp]]|[L [S' Sp]]]];
      (rewrite resting_moving by (specialize (Hd eq_refl); lra));
      unfold moving_view; rewrite S'; cbn [code_config Spec.decelerationMultiplier Spec.speedEpsilon];
      change (Spec.Qltb ?a ?b) with (js_lt a b); unfold DECELERATION_MULTIPLIER;
      match goal with |- context [js_lt ?a ?b] => destruct (js_ltP a b) end; try lra; equiv_close.
  - destruct M as [S' [Sp Of]]. specialize (Hr eq_refl).
    assert (offset g + speed g == offset g) as E by lra.
    rewrite E, (centerIndex_nearest len), returnStep_adjustment in Of. cbv zeta in Of.
    change (Spec.sp_offset (moving_view g)) with (offset g).
    change (Spec.sp_speed (moving_view g)) with (speed g).
    destruct (Qle_bool (Qabs (offset g + Spec.adjustment (code_config len) (offset g)))
                       (Spec.offsetEpsilon (code_config len))) eqn:B.
    + rewrite resting_rest by (rewrite ?Sp; assumption). unfold moving_view. rewrite S', Sp.
      equiv_close.
    + assert (~ Qabs (offset g + Spec.adjustment (code_config len) (offset g))
                <= Spec.offsetEpsilon (code_config len)) as B'
        by (intro C; apply Qle_bool_iff in C; congruence).
      rewrite resting_moving by (intros [_ C]; apply B'; rewrite <- Of, C; close_num).
      unfold moving_view. rewrite S', Sp. equiv_close.
Qed.

(** ** Refinement *)

(** C15: refinement of a frame.  For a well-formed reel that moves, with
    an offset below two widths, the frame of [update] (on the globals,
    [tick]) is the tick of the specification's machine configured with the
    code's constants, except for the offset: the code adds the speed of
    before the phase's rule (line 85), the specification the speed after it,
    so the code's offset is the machine's plus the old speed minus the new
    one (a difference that is 0 in RETURN and at the settle). *)
Theorem tick_refines len now g :
  (0 < len)%Z -> reel_ok len g -> resting g = false -> offset g < 2 * IMAGE_WIDTH ->
  let g' := fst (tick len now g) in
  Spec.equiv (Spec.tick (code_config len) now (view g))
             (shifted (speed g' - speed g) (view g')).
Proof.
  intros Hl Hg R Ho g'. pose proof Hg as [Hs [Ho0 [Hi [Ha [Hd Hr]]]]].
  rewrite tick_view by exact R.
  destruct (accelerationCheck_cases now g) as [As [Ao [Ai Ph]]].
  rewrite (wrap_view len (accelerationCheck now g)) by (rewrite ?Ao, ?Ai; lra || lia).
  destruct (tick_prefix len now g Ho0) as [S2 [O2 Ph2]].
  unfold g', tick. cbn [fst]. rewrite <- S2.
  apply move_view; rewrite ?S2; [exact O2 | exact Hs | |];
    intro St; destruct Ph2 as [P|[P1 P2]]; rewrite St in *.
  - specialize (Hd (eq_sym P)). lra.
  - specialize (Ha P1). unfold BASE_SPEED in Ha. lra.
  - now apply Hr.
  - discriminate.
Qed.

(** C16: refinement of a click.  The click listener (lines 134-145) is the
    specification's trigger whenever the duration [random] draws is at most
    [ACCELERATION_DURATION_MAX]: on a reel at rest, whose view is [Idle],
    it starts the acceleration at the base speed, at the click's time, for
    that duration; on a moving reel it changes nothing. *)
Theorem click_refines {Img} len t0 r (w : World Img) :
  0 <= r < 1 ->
  (random ACCELERATION_DURATION_MIN ACCELERATION_DURATION_MAX r <= ACCELERATION_DURATION_MAX)%Z ->
  Spec.trigger (code_config len) t0 (view (globals w)) (view (globals (click t0 r w))).
Proof.
  intros Hr Hmax. unfold click. destruct (resting (globals w)) eqn:R.
  - pose proof (random_range ACCELERATION_DURATION_MIN ACCELERATION_DURATION_MAX r
                  ltac:(unfold ACCELERATION_DURATION_MIN, ACCELERATION_DURATION_MAX; lia)
                  ltac:(unfold ACCELERATION_DURATION_MAX; lia) Hr) as [D1 _].
    unfold resting in R. apply andb_true_iff in R as [R1 R2].
    destruct (js_eqP (speed (globals w)) 0) as [S0|]; [|discriminate].
    destruct (js_eqP (offset (globals w)) 0) as [O0|]; [|discriminate].
    unfold view at 2. rewrite resting_moving by (cbn; unfold BASE_SPEED; lra).
    unfold view. rewrite (resting_rest _ S0 O0).
    apply (Spec.trigger_accept (code_config len) t0
             (Spec.with_phase Spec.Idle (moving_view (globals w)))
             (inject_Z (random ACCELERATION_DURATION_MIN ACCELERATION_DURATION_MAX r))
             eq_refl S0 O0).
    split; rewrite <- Zle_Qle; assumption.
  - apply Spec.trigger_reject. unfold view. rewrite R.
    intros [P _]. cbn in P. destruct (state (globals w)); discriminate.
Qed.


(** ** Witnesses *)

Lemma tick_refines_witness :
  (0 < 5)%Z /\ reel_ok 5 accelerating_reel /\ resting accelerating_reel = false /\
  offset accelerating_reel < 2 * IMAGE_WIDTH /\
  let g' := fst (tick 5 2000 accelerating_reel) in
  Spec.equiv (Spec.tick (code_config 5) 2000 (view accelerating_reel))
             (shifted (speed g' - speed accelerating_reel) (view g')).
Proof.
  assert (reel_ok 5 accelerating_reel) as H by (unfold reel_ok; close_num).
  split; [lia|]. split; [exact H|]. split; [reflexivity|]. split; [close_num|].
  apply tick_refines; [lia | exact H | reflexivity | close_num].
Defined.

Lemma click_refines_witness :
  0 <= 1#2 < 1 /\
  (random ACCELERATION_DURATION_MIN ACCELERATION_DURATION_MAX (1#2) <= ACCELERATION_DURATION_MAX)%Z /\
  Spec.trigger (code_config 5) 0 (view (globals (init five_images blank_context)))
    (view (globals (click 0 (1#2) (init five_images blank_context)))).
Proof.
  split; [close_num|]. split; [vm_compute; discriminate|].
  apply click_refines; [close_num | vm_compute; discriminate].
Defined.

